(** * Auto Node plugin: the synchronisation engine of [src/main.ts]

    A shallow embedding of the string handling ([containsKeyword],
    [mergeGeneratedSection], [normalizeMarkers], [ensureIntroSection]), of
    the registry and refresh methods of [AutoNodePlugin], and of the
    debounce timer of [scheduleRefresh], followed by the properties of the
    engine that the specification states.

    JavaScript strings are sequences of UTF-16 code units; they are
    modelled as [list N].  The case tables ([toLowerCase], [toUpperCase])
    are the Unicode ones for the code units U+0000 to U+00FF and leave
    every other code unit alone. *)

From Stdlib Require Import NArith ZArith List Bool Lia Ascii String.
From stdpp Require Import base option list gmap.

Set Default Proof Using "Type".

(* ===================================================================== *)
(** * Part I: definitions *)
(* ===================================================================== *)

(** ** JavaScript strings *)

Abbreviation codeunit := N (only parsing).
Abbreviation jsstring := (list N) (only parsing).

Module Js.

(** A string literal of the source, as code units. *)
Definition lit (s : string) : jsstring :=
  List.map N_of_ascii (list_ascii_of_string s).

(** [WhiteSpace] and [LineTerminator] of ECMAScript: what [\s] matches and
    what [trim], [trimStart] and [trimEnd] remove. *)
Definition isWhiteSpace (c : codeunit) : bool :=
  ((9 <=? c) && (c <=? 13) || (c =? 32) || (c =? 160) || (c =? 5760)
   || (8192 <=? c) && (c <=? 8202) || (c =? 8232) || (c =? 8233)
   || (c =? 8239) || (c =? 8287) || (c =? 12288) || (c =? 65279))%N.

Fixpoint trimStart (s : jsstring) : jsstring :=
  match s with
  | c :: s' => if isWhiteSpace c then trimStart s' else s
  | [] => []
  end.

Fixpoint trimEnd (s : jsstring) : jsstring :=
  match s with
  | c :: s' =>
      match trimEnd s' with
      | [] => if isWhiteSpace c then [] else [c]
      | t => c :: t
      end
  | [] => []
  end.

Definition trim (s : jsstring) : jsstring := trimEnd (trimStart s).

Fixpoint startsWith (p s : jsstring) : bool :=
  match p, s with
  | [], _ => true
  | a :: p', b :: s' => (a =? b)%N && startsWith p' s'
  | _ :: _, [] => false
  end.

(** First position at which [p] occurs in [s]. *)
Fixpoint find (p s : jsstring) : option nat :=
  if startsWith p s then Some 0
  else match s with
       | [] => None
       | _ :: s' => S <$> find p s'
       end.

(** [s.indexOf(p)]: the position, or [-1]. *)
Definition indexOf (p s : jsstring) : Z :=
  match find p s with
  | Some i => Z.of_nat i
  | None => (-1)%Z
  end.

Definition includes (p s : jsstring) : bool :=
  negb (indexOf p s =? -1)%Z.

Definition endsWith (p s : jsstring) : bool :=
  startsWith (rev p) (rev s).

(** [s.slice(from, to)] and [s.slice(from)]: a negative index counts from
    the end, and both are clamped to the string. *)
Definition clampIndex (len i : Z) : nat :=
  Z.to_nat (if (i <? 0)%Z then Z.max (len + i) 0 else Z.min i len).

Definition slice (s : jsstring) (from to : Z) : jsstring :=
  let len := Z.of_nat (length s) in
  let a := clampIndex len from in
  let b := clampIndex len to in
  take (b - a) (drop a s).

Definition sliceFrom (s : jsstring) (from : Z) : jsstring :=
  drop (clampIndex (Z.of_nat (length s)) from) s.

(** [parts.join(sep)]. *)
Fixpoint join (sep : jsstring) (parts : list jsstring) : jsstring :=
  match parts with
  | [] => []
  | [p] => p
  | p :: rest => p ++ sep ++ join sep rest
  end.

(** [s.split(sep)] for a separator of one code unit. *)
Fixpoint split (sep : codeunit) (s : jsstring) : list jsstring :=
  match s with
  | [] => [[]]
  | c :: s' =>
      if (c =? sep)%N then [] :: split sep s'
      else match split sep s' with
           | p :: ps => (c :: p) :: ps
           | [] => [[c]]
           end
  end.

(** [s.replace(p, r)] with a string pattern: the first occurrence only. *)
Definition replaceFirst (p r s : jsstring) : jsstring :=
  match find p s with
  | Some i => take i s ++ r ++ drop (i + length p) s
  | None => s
  end.

(** Case mapping of one code unit (Unicode, U+0000 to U+00FF). *)
Definition lowerUnit (c : codeunit) : codeunit :=
  (if (65 <=? c) && (c <=? 90)
      || (192 <=? c) && (c <=? 222) && negb (c =? 215)
   then c + 32 else c)%N.

Definition upperUnits (c : codeunit) : jsstring :=
  (if (97 <=? c) && (c <=? 122) then [c - 32]
   else if c =? 223 then [83; 83]
   else if c =? 181 then [924]
   else if c =? 255 then [376]
   else if (224 <=? c) && (c <=? 254) && negb (c =? 247) then [c - 32]
   else [c])%N.

Definition toLowerCase (s : jsstring) : jsstring := List.map lowerUnit s.


End Js.

(** ** Regular expressions

    The fragment of ECMAScript regular expressions that the source uses,
    without the [u] flag: literal characters, the classes [\s], [[^c]],
    [[\s\S]] and [[...]], the greedy and the lazy star and the option on
    one character, [^] and [\b].  Matching backtracks as the language
    prescribes. *)

Module Regex.

Inductive atom : Type :=
| Chr (c : codeunit)
| Space
| NotChr (c : codeunit)
| AnyChr
| OneOf (cs : jsstring).

Inductive item : Type :=
| One (a : atom)
| Star (a : atom)
| LazyStar (a : atom)
| Opt (a : atom)
| Bol
| WordB.

Record RegExp : Type := mkRegExp {
  source : list item;
  ignoreCase : bool;
  global : bool;
  lastIndex : nat
}.

(** [Canonicalize] of the language for the [i] flag without [u]: the
    upper-case mapping when it is one code unit and does not send a
    character outside ASCII into ASCII. *)
Definition canonicalize (c : codeunit) : codeunit :=
  match Js.upperUnits c with
  | [cu] => if ((128 <=? c) && (cu <? 128))%N then c else cu
  | _ => c
  end.

Definition sameChar (ic : bool) (a b : codeunit) : bool :=
  if ic then (canonicalize a =? canonicalize b)%N else (a =? b)%N.

Definition atomMatch (ic : bool) (a : atom) (c : codeunit) : bool :=
  match a with
  | Chr p => sameChar ic p c
  | Space => Js.isWhiteSpace c
  | NotChr p => negb (sameChar ic p c)
  | AnyChr => true
  | OneOf cs => existsb (fun p => sameChar ic p c) cs
  end.

(** [\w] is [[A-Za-z0-9_]]. *)
Definition isWordChar (c : codeunit) : bool :=
  ((48 <=? c) && (c <=? 57) || (65 <=? c) && (c <=? 90)
   || (97 <=? c) && (c <=? 122) || (c =? 95))%N.

Definition isWordAt (o : option codeunit) : bool :=
  match o with
  | Some c => isWordChar c
  | None => false
  end.

Section Continuation.

(** The rest of the pattern: from the character before the position and
    the text at the position to the length it matches. *)
Variable test : codeunit -> bool.
Variable k : option codeunit -> jsstring -> option nat.

Fixpoint starGreedy (prev : option codeunit) (s : jsstring) : option nat :=
  match s with
  | c :: s' =>
      if test c then
        match starGreedy (Some c) s' with
        | Some n => Some (S n)
        | None => k prev s
        end
      else k prev s
  | [] => k prev s
  end.

Fixpoint starLazy (prev : option codeunit) (s : jsstring) : option nat :=
  match k prev s with
  | Some n => Some n
  | None =>
      match s with
      | c :: s' => if test c then S <$> starLazy (Some c) s' else None
      | [] => None
      end
  end.

End Continuation.

(** [matchItems ic p prev s]: the pattern [p] matches a prefix of [s], of
    the length returned; [prev] is the character before [s] in the text. *)
Fixpoint matchItems (ic : bool) (p : list item)
    (prev : option codeunit) (s : jsstring) : option nat :=
  match p with
  | [] => Some 0
  | One a :: r =>
      match s with
      | c :: s' =>
          if atomMatch ic a c then S <$> matchItems ic r (Some c) s' else None
      | [] => None
      end
  | Star a :: r => starGreedy (atomMatch ic a) (matchItems ic r) prev s
  | LazyStar a :: r => starLazy (atomMatch ic a) (matchItems ic r) prev s
  | Opt a :: r =>
      match s with
      | c :: s' =>
          if atomMatch ic a c then
            match matchItems ic r (Some c) s' with
            | Some n => Some (S n)
            | None => matchItems ic r prev s
            end
          else matchItems ic r prev s
      | [] => matchItems ic r prev s
      end
  | Bol :: r =>
      match prev with
      | None => matchItems ic r prev s
      | Some _ => None
      end
  | WordB :: r =>
      if xorb (isWordAt prev) (isWordAt (head s)) then matchItems ic r prev s
      else None
  end.

(** The leftmost match at or after the position of [s], which is [pos]:
    its index and its length. *)
Fixpoint searchFrom (ic : bool) (p : list item) (prev : option codeunit)
    (s : jsstring) (pos : nat) : option (nat * nat) :=
  match matchItems ic p prev s with
  | Some n => Some (pos, n)
  | None =>
      match s with
      | c :: s' => searchFrom ic p (Some c) s' (S pos)
      | [] => None
      end
  end.

Definition charBefore (s : jsstring) (i : nat) : option codeunit :=
  match i with
  | 0 => None
  | S j => s !! j
  end.

(** [re.test(s)]: the answer and the regular expression afterwards, whose
    [lastIndex] a global expression moves. *)
Definition test (re : RegExp) (s : jsstring) : bool * RegExp :=
  let start := if global re then lastIndex re else 0 in
  let reset := mkRegExp (source re) (ignoreCase re) (global re) 0 in
  if (length s <? start)%nat then (false, if global re then reset else re)
  else
    match searchFrom (ignoreCase re) (source re) (charBefore s start)
            (drop start s) start with
    | Some (i, n) =>
        (true,
         if global re
         then mkRegExp (source re) (ignoreCase re) (global re) (i + n)
         else re)
    | None => (false, if global re then reset else re)
    end.

(** [s.match(re)[0]] for an expression without the [g] flag. *)
Definition firstMatch (re : RegExp) (s : jsstring) : option jsstring :=
  match searchFrom (ignoreCase re) (source re) None s 0 with
  | Some (i, n) => Some (take n (drop i s))
  | None => None
  end.

(** [s.replace(re, f)] for a global expression: every match, from the
    left, is replaced by [f] of the match.  [skip] counts the characters of
    the last match still to pass. *)
Fixpoint replaceGo (ic : bool) (p : list item) (f : jsstring -> jsstring)
    (skip : nat) (prev : option codeunit) (s : jsstring) : jsstring :=
  match s with
  | [] =>
      match skip, matchItems ic p prev [] with
      | 0, Some _ => f []
      | _, _ => []
      end
  | c :: s' =>
      match skip with
      | S j => replaceGo ic p f j (Some c) s'
      | 0 =>
          match matchItems ic p prev s with
          | Some 0 => f [] ++ c :: replaceGo ic p f 0 (Some c) s'
          | Some (S n) => f (take (S n) s) ++ replaceGo ic p f n (Some c) s'
          | None => c :: replaceGo ic p f 0 (Some c) s'
          end
      end
  end.

Definition replaceAll (re : RegExp) (f : jsstring -> jsstring)
    (s : jsstring) : jsstring :=
  replaceGo (ignoreCase re) (source re) f 0 None s.

(** The literal characters of a pattern. *)
Definition chars (s : jsstring) : list item := List.map (fun c => One (Chr c)) s.

(** The characters with a meaning in a pattern: [. * + ? ^ $ { } ( ) | [ ] \]. *)
Definition syntaxChars : jsstring :=
  [46; 42; 43; 63; 94; 36; 123; 125; 40; 41; 124; 91; 93; 92]%N.

Definition isSyntaxChar (c : codeunit) : bool :=
  existsb (N.eqb c) syntaxChars.

(** [new RegExp(src, flags)] for the patterns [containsKeyword] builds:
    [\b], an escaped syntax character, or a plain character; anything else
    is outside the fragment and is refused, as a syntax error is. *)
Fixpoint parsePattern (src : jsstring) : option (list item) :=
  match src with
  | [] => Some []
  | c :: rest =>
      if (c =? 92)%N then
        match rest with
        | d :: rest' =>
            if (d =? 98)%N then cons WordB <$> parsePattern rest'
            else if isSyntaxChar d then cons (One (Chr d)) <$> parsePattern rest'
            else None
        | [] => None
        end
      else if isSyntaxChar c then None
      else cons (One (Chr c)) <$> parsePattern rest
  end.

Definition newRegExp (src : jsstring) (flags : jsstring) : option RegExp :=
  match parsePattern src with
  | Some p =>
      Some (mkRegExp p (Js.includes [105%N] flags) (Js.includes [103%N] flags) 0)
  | None => None
  end.

End Regex.

(** ** The strings of the plugin *)

Import Js Regex.

Definition nl : jsstring := [10%N].

Definition AUTO_NODE_MARKER_START : jsstring := lit "<!-- auto-node:start -->".
Definition AUTO_NODE_MARKER_END : jsstring := lit "<!-- auto-node:end -->".

Definition INTRO_HEADING : jsstring := lit "# Auto Node".

Definition AUTO_NODE_INTRO : jsstring :=
  join nl
    [ INTRO_HEADING;
      lit "An auto node is a special Obsidian .md note that will aggregate all your notes that contain a keyword of your choosing across your vault.";
      lit "Go to the Auto-node readme.md for more information.";
      lit "___";
      [] ].

Definition NO_MATCHES : jsstring := lit "_No matching notes yet._".

Arguments lit : simpl never.
Arguments AUTO_NODE_MARKER_START : simpl never.
Arguments AUTO_NODE_MARKER_END : simpl never.
Arguments INTRO_HEADING : simpl never.
Arguments AUTO_NODE_INTRO : simpl never.
Arguments NO_MATCHES : simpl never.

(** [/<!--\s*auto-node keyword:[^>]*-->/gi] *)
Definition keywordCommentRe : RegExp :=
  mkRegExp
    (chars (lit "<!--") ++ [Star Space] ++ chars (lit "auto-node keyword:")
     ++ [Star (NotChr 62)] ++ chars (lit "-->"))
    true true 0.

(** [/<!--\s*auto-node:start\s*-->/gi] *)
Definition startMarkerRe : RegExp :=
  mkRegExp
    (chars (lit "<!--") ++ [Star Space] ++ chars (lit "auto-node:start")
     ++ [Star Space] ++ chars (lit "-->"))
    true true 0.

(** [/<!--\s*auto-node:end\s*-->/gi] *)
Definition endMarkerRe : RegExp :=
  mkRegExp
    (chars (lit "<!--") ++ [Star Space] ++ chars (lit "auto-node:end")
     ++ [Star Space] ++ chars (lit "-->"))
    true true 0.

(** [/^---[\s\S]*?\n---\n?/] *)
Definition frontmatterRe : RegExp :=
  mkRegExp
    ([Bol] ++ chars (lit "---") ++ [LazyStar AnyChr] ++ chars (nl ++ lit "---")
     ++ [Opt (Chr 10)])
    false false 0.

(** [/[.*+?^${}()|[\]\\]/g] *)
Definition syntaxCharRe : RegExp :=
  mkRegExp [One (OneOf syntaxChars)] false true 0.

(** The callback of the first replacement of [normalizeMarkers]:
    [match.split(":")[1]?.replace("-->", "").trim() ?? ""], put back in
    the canonical comment. *)
Definition canonicalKeywordComment (m : jsstring) : jsstring :=
  let keyword :=
    match split 58 m !! 1%nat with
    | Some piece => trim (replaceFirst (lit "-->") [] piece)
    | None => []
    end in
  lit "<!-- Auto-node keyword: " ++ keyword ++ lit " -->".

Definition normalizeMarkers (content : jsstring) : jsstring :=
  replaceAll endMarkerRe (fun _ => AUTO_NODE_MARKER_END)
    (replaceAll startMarkerRe (fun _ => AUTO_NODE_MARKER_START)
       (replaceAll keywordCommentRe canonicalKeywordComment content)).

Definition ensureIntroSection (content : jsstring) : jsstring :=
  if includes INTRO_HEADING content then content
  else
    match firstMatch frontmatterRe content with
    | Some frontmatter =>
        let rest := trimStart (sliceFrom content (Z.of_nat (length frontmatter))) in
        let body := match rest with [] => [] | _ => nl ++ rest end in
        trimEnd (frontmatter ++ AUTO_NODE_INTRO ++ body) ++ nl
    | None =>
        let trimmed := trimStart content in
        match trimmed with
        | [] => AUTO_NODE_INTRO
        | _ => AUTO_NODE_INTRO ++ nl ++ trimmed
        end
    end.

(** The third step of [mergeGeneratedSection]: a marker pair is appended
    when one of the two markers is absent. *)
Definition establishMarkers (next : jsstring) : jsstring :=
  if negb (includes AUTO_NODE_MARKER_START next)
     || negb (includes AUTO_NODE_MARKER_END next)
  then join nl [trimEnd next; []; AUTO_NODE_MARKER_START; AUTO_NODE_MARKER_END; []]
  else next.

(** The last steps of [mergeGeneratedSection]: the markers are located and
    what lies between them is replaced. *)
Definition replaceBetweenMarkers (next generated : jsstring) : jsstring :=
  let startIndex := indexOf AUTO_NODE_MARKER_START next in
  let endIndex := indexOf AUTO_NODE_MARKER_END next in
  if (startIndex =? -1)%Z || (endIndex =? -1)%Z || (endIndex <? startIndex)%Z
  then next
  else
    let before :=
      slice next 0 (startIndex + Z.of_nat (length AUTO_NODE_MARKER_START)) in
    let after := sliceFrom next endIndex in
    trimEnd (before ++ nl ++ nl ++ generated ++ nl ++ nl ++ trimStart after)
    ++ nl.

Definition mergeGeneratedSection (current generated keyword : jsstring)
    : jsstring :=
  let next := normalizeMarkers current in
  let next := ensureIntroSection next in
  let next := establishMarkers next in
  replaceBetweenMarkers next generated.

(** ** Documents and match rules *)

Record AutoNodeConfig : Type := mkConfig {
  keyword : jsstring;
  caseSensitive : bool;
  matchWholeWord : bool
}.

Record AutoNodeRecord : Type := mkRecord {
  path : jsstring;
  config : AutoNodeConfig
}.

(** A file of the vault: its path, its name without the extension, and
    the extension. *)
Record TFile : Type := mkFile {
  filePath : jsstring;
  basename : jsstring;
  extension : jsstring
}.

(** [keyword.replace(/[.*+?^${}()|[\]\\]/g, "\\$&")] *)
Definition escapeKeyword (keyword : jsstring) : jsstring :=
  replaceAll syntaxCharRe (fun m => [92%N] ++ m) keyword.

(** [containsKeyword]; [None] when the constructor of the regular
    expression throws.  The three calls of [test] share one expression,
    whose [lastIndex] each call moves. *)
Definition containsKeyword (file : TFile) (content : jsstring)
    (cfg : AutoNodeConfig) : option bool :=
  let kw := if caseSensitive cfg then keyword cfg else toLowerCase (keyword cfg) in
  let haystack := if caseSensitive cfg then content else toLowerCase content in
  let titleHaystack :=
    if caseSensitive cfg then basename file else toLowerCase (basename file) in
  let pathHaystack :=
    if caseSensitive cfg then filePath file else toLowerCase (filePath file) in
  if negb (matchWholeWord cfg) then
    Some (includes kw haystack || includes kw titleHaystack
          || includes kw pathHaystack)
  else
    let escaped := escapeKeyword kw in
    let flags := if caseSensitive cfg then lit "g" else lit "gi" in
    match newRegExp (lit "\b" ++ escaped ++ lit "\b") flags with
    | None => None
    | Some regex =>
        let '(inContent, regex) := Regex.test regex content in
        if inContent then Some true
        else
          let '(inTitle, regex) := Regex.test regex (basename file) in
          if inTitle then Some true
          else Some (fst (Regex.test regex (filePath file)))
    end.


(** ** The vault and the plugin

    The application around the plugin is a state: the files and folders of
    the vault, what the metadata cache holds, the stored settings, and the
    fields of [AutoNodePlugin].  A call of the application that can be
    rejected is rejected when [faults] gives a message for it; [vaultWrites] lists the
    calls of [vault.modify] that were carried out. *)

Inductive HostCall : Type :=
| CachedRead (p : jsstring)
| Read (p : jsstring)
| Modify (p : jsstring)
| CreateFolder (p : jsstring)
| RenameFile (p : jsstring)
| SaveData.

(** A value of the frontmatter, as the metadata cache gives it. *)
Inductive yaml : Type :=
| YString (s : jsstring)
| YBool (b : bool).

Record World : Type := mkWorld {
  vaultFiles : list TFile;
  vaultFolders : list jsstring;
  vaultData : gmap jsstring jsstring;
  vaultWrites : list (jsstring * jsstring);
  frontmatters : gmap jsstring (gmap jsstring yaml);
  faults : HostCall -> option jsstring;
  storedNodes : gmap jsstring AutoNodeRecord;
  consoleErrors : list jsstring;
  isUpdating : gset jsstring;
  nodeRecords : gmap jsstring AutoNodeRecord;
  settingsNodes : gmap jsstring AutoNodeRecord
}.

Definition setVaultFiles (x : list TFile) (w : World)
    : World :=
  mkWorld x (vaultFolders w) (vaultData w) (vaultWrites w) (frontmatters
    w) (faults w) (storedNodes w) (consoleErrors w) (isUpdating w)
    (nodeRecords w) (settingsNodes w).

Definition setVaultFolders (x : list jsstring) (w : World)
    : World :=
  mkWorld (vaultFiles w) x (vaultData w) (vaultWrites w) (frontmatters w)
    (faults w) (storedNodes w) (consoleErrors w) (isUpdating w)
    (nodeRecords w) (settingsNodes w).

Definition setVaultData (x : gmap jsstring jsstring) (w : World)
    : World :=
  mkWorld (vaultFiles w) (vaultFolders w) x (vaultWrites w) (frontmatters
    w) (faults w) (storedNodes w) (consoleErrors w) (isUpdating w)
    (nodeRecords w) (settingsNodes w).

Definition setVaultWrites (x : list (jsstring * jsstring)) (w : World)
    : World :=
  mkWorld (vaultFiles w) (vaultFolders w) (vaultData w) x (frontmatters w)
    (faults w) (storedNodes w) (consoleErrors w) (isUpdating w)
    (nodeRecords w) (settingsNodes w).

Definition setStoredNodes (x : gmap jsstring AutoNodeRecord) (w : World)
    : World :=
  mkWorld (vaultFiles w) (vaultFolders w) (vaultData w) (vaultWrites w)
    (frontmatters w) (faults w) x (consoleErrors w) (isUpdating w)
    (nodeRecords w) (settingsNodes w).

Definition setConsoleErrors (x : list jsstring) (w : World)
    : World :=
  mkWorld (vaultFiles w) (vaultFolders w) (vaultData w) (vaultWrites w)
    (frontmatters w) (faults w) (storedNodes w) x (isUpdating w)
    (nodeRecords w) (settingsNodes w).

Definition setIsUpdating (x : gset jsstring) (w : World)
    : World :=
  mkWorld (vaultFiles w) (vaultFolders w) (vaultData w) (vaultWrites w)
    (frontmatters w) (faults w) (storedNodes w) (consoleErrors w) x
    (nodeRecords w) (settingsNodes w).

Definition setNodeRecords (x : gmap jsstring AutoNodeRecord) (w : World)
    : World :=
  mkWorld (vaultFiles w) (vaultFolders w) (vaultData w) (vaultWrites w)
    (frontmatters w) (faults w) (storedNodes w) (consoleErrors w)
    (isUpdating w) x (settingsNodes w).

Definition setSettingsNodes (x : gmap jsstring AutoNodeRecord) (w : World)
    : World :=
  mkWorld (vaultFiles w) (vaultFolders w) (vaultData w) (vaultWrites w)
    (frontmatters w) (faults w) (storedNodes w) (consoleErrors w)
    (isUpdating w) (nodeRecords w) x.

(** *** Asynchronous methods: a state and an exception *)

Inductive outcome (A : Type) : Type :=
| Returned (a : A)
| Thrown (message : jsstring).

Arguments Returned {A} a.
Arguments Thrown {A} message.

Definition Async (A : Type) : Type := World -> outcome A * World.

Definition ret {A} (a : A) : Async A := fun w => (Returned a, w).

Definition throw {A} (message : jsstring) : Async A :=
  fun w => (Thrown message, w).

Definition bind {A B} (m : Async A) (f : A -> Async B) : Async B :=
  fun w =>
    match m w with
    | (Returned a, w') => f a w'
    | (Thrown e, w') => (Thrown e, w')
    end.

Definition gets {A} (f : World -> A) : Async A := fun w => (Returned (f w), w).

Definition modifyWorld (f : World -> World) : Async unit :=
  fun w => (Returned tt, f w).

(** [try { body } finally { cleanup }] *)
Definition tryFinally {A} (body : Async A) (cleanup : Async unit) : Async A :=
  fun w =>
    match body w with
    | (r, w') =>
        match cleanup w' with
        | (Returned _, w'') => (r, w'')
        | (Thrown e, w'') => (Thrown e, w'')
        end
    end.

(** [try { body } catch (error) { handler(error) }] *)
Definition tryCatch {A} (body : Async A) (handler : jsstring -> Async A)
    : Async A :=
  fun w =>
    match body w with
    | (Returned a, w') => (Returned a, w')
    | (Thrown e, w') => handler e w'
    end.

Declare Scope async_scope.
Delimit Scope async_scope with async.
Notation "'await' x ':=' m 'in' k" := (bind m (fun x => k))
  (at level 10, x name, m at level 200, k at level 200) : async_scope.
Local Open Scope async_scope.

(** A call of the application: rejected with the message of [faults], or
    carried out. *)
Definition hostCall {A} (call : HostCall) (run : Async A) : Async A :=
  fun w =>
    match faults w call with
    | Some message => (Thrown message, w)
    | None => run w
    end.

Definition isMarkdown (f : TFile) : bool :=
  bool_decide (extension f = lit "md").

(** [this.app.vault.getMarkdownFiles()] *)
Definition getMarkdownFiles : Async (list TFile) :=
  gets (fun w => List.filter isMarkdown (vaultFiles w)).

Definition contentOf (w : World) (p : jsstring) : jsstring :=
  default [] (vaultData w !! p).

(** [this.app.vault.cachedRead(file)] *)
Definition cachedRead (file : TFile) : Async jsstring :=
  hostCall (CachedRead (filePath file))
    (gets (fun w => contentOf w (filePath file))).

(** [this.app.vault.read(file)] *)
Definition read (file : TFile) : Async jsstring :=
  hostCall (Read (filePath file))
    (gets (fun w => contentOf w (filePath file))).

(** [this.app.vault.modify(file, text)] *)
Definition modify (file : TFile) (text : jsstring) : Async unit :=
  hostCall (Modify (filePath file))
    (modifyWorld (fun w =>
       setVaultWrites (vaultWrites w ++ [(filePath file, text)])
         (setVaultData (<[filePath file := text]> (vaultData w)) w))).

Inductive abstractFile : Type :=
| IsFile (f : TFile)
| IsFolder (p : jsstring).

(** [this.app.vault.getAbstractFileByPath(p)] *)
Definition getAbstractFileByPath (w : World) (p : jsstring)
    : option abstractFile :=
  match List.find (fun f => bool_decide (filePath f = p)) (vaultFiles w) with
  | Some f => Some (IsFile f)
  | None =>
      if bool_decide (p ∈ vaultFolders w) then Some (IsFolder p) else None
  end.

(** [console.error(...)] *)
Definition consoleError (message : jsstring) : Async unit :=
  modifyWorld (fun w => setConsoleErrors (consoleErrors w ++ [message]) w).

(** [saveSettings]: the snapshot of the registry is taken, then stored. *)
Definition saveSettings : Async unit :=
  await _ := modifyWorld (fun w => setSettingsNodes (nodeRecords w) w) in
  hostCall SaveData (modifyWorld (fun w => setStoredNodes (settingsNodes w) w)).

(** [void this.saveSettings().catch((error) => console.error(...))] *)
Definition saveSettingsDetached : Async unit :=
  tryCatch saveSettings
    (fun _ => consoleError (lit "[auto-node] Failed to save settings")).

Definition upsertAutoNodeRecord (p : jsstring) (cfg : AutoNodeConfig)
    : Async unit :=
  await _ := modifyWorld (fun w =>
               setNodeRecords (<[p := mkRecord p cfg]> (nodeRecords w)) w) in
  saveSettingsDetached.

Definition removeAutoNodeRecord (p : jsstring) : Async unit :=
  await known := gets (fun w => nodeRecords w !! p) in
  match known with
  | Some _ =>
      await _ := modifyWorld (fun w => setNodeRecords (delete p (nodeRecords w)) w) in
      saveSettingsDetached
  | None => ret tt
  end.

Definition renameAutoNodeRecord (oldPath newPath : jsstring) : Async unit :=
  await known := gets (fun w => nodeRecords w !! oldPath) in
  match known with
  | Some record =>
      await _ := modifyWorld (fun w =>
                   setNodeRecords
                     (<[newPath := mkRecord newPath (config record)]>
                        (delete oldPath (nodeRecords w))) w) in
      saveSettingsDetached
  | None => ret tt
  end.

(** [parseBoolean] on a value of the frontmatter; an absent key is
    [undefined]. *)
Definition parseBoolean (value : option yaml) : bool :=
  match value with
  | Some (YBool b) => b
  | Some (YString v) =>
      let v := toLowerCase (trim v) in
      bool_decide (v ∈ [lit "true"; lit "yes"; lit "1"])
  | None => false
  end.

Definition detectAutoNodeConfig (w : World) (file : TFile)
    : option AutoNodeConfig :=
  match frontmatters w !! filePath file with
  | None => None
  | Some frontmatter =>
      let found :=
        match frontmatter !! lit "autoNodeKeyword" with
        | Some v => Some v
        | None =>
            match frontmatter !! lit "autonodekeyword" with
            | Some v => Some v
            | None => frontmatter !! lit "auto-node-keyword"
            end
        end in
      let cs := parseBoolean (frontmatter !! lit "autoNodeCaseSensitive") in
      let ww := parseBoolean (frontmatter !! lit "autoNodeMatchWholeWord") in
      match found with
      | None | Some (YString []) | Some (YBool false) => None
      | Some (YString kw) => Some (mkConfig kw cs ww)
      | Some (YBool true) => Some (mkConfig (lit "true") cs ww)
      end
  end.

Definition resolveAutoNodeRecord (file : TFile)
    : Async (option AutoNodeRecord) :=
  await known := gets (fun w => nodeRecords w !! filePath file) in
  match known with
  | Some record => ret (Some record)
  | None =>
      await detected := gets (fun w => detectAutoNodeConfig w file) in
      match detected with
      | None => ret None
      | Some cfg =>
          let record := mkRecord (filePath file) cfg in
          await _ := modifyWorld (fun w =>
                       setNodeRecords (<[filePath file := record]> (nodeRecords w)) w) in
          await _ := saveSettingsDetached in
          ret (Some record)
      end
  end.

(** What the plugin takes from the application without a state: the
    normal form of a path ([None] when [normalizePath] throws), the link
    to a file as written in the file at a path, and the comparison of two
    strings in the locale. *)
Class HostApi : Type := mkHostApi {
  normalizePath : jsstring -> option jsstring;
  generateMarkdownLink : TFile -> jsstring -> jsstring;
  localeCompare : jsstring -> jsstring -> Z
}.

(** [array.sort(compare)], which is stable. *)
Fixpoint insertSorted {A} (compare : A -> A -> Z) (x : A) (l : list A)
    : list A :=
  match l with
  | [] => [x]
  | y :: l' =>
      if (compare x y <=? 0)%Z then x :: l else y :: insertSorted compare x l'
  end.

Definition sortWith {A} (compare : A -> A -> Z) (l : list A) : list A :=
  fold_right (insertSorted compare) [] l.

Section Plugin.

Context `{HostApi}.

(** The loop of [refreshAutoNode] over the files of the vault. *)
Fixpoint collectMatches (file : TFile) (record : AutoNodeRecord)
    (vaultFiles : list TFile) (matches : list jsstring)
    : Async (list jsstring) :=
  match vaultFiles with
  | [] => ret matches
  | otherFile :: rest =>
      if bool_decide (filePath otherFile = filePath file)
      then collectMatches file record rest matches
      else
        await content := cachedRead otherFile in
        match containsKeyword otherFile content (config record) with
        | None => throw (lit "Invalid regular expression")
        | Some true =>
            collectMatches file record rest
              (matches ++ [generateMarkdownLink otherFile (filePath file)])
        | Some false => collectMatches file record rest matches
        end
  end.

Definition renderSection (matches : list jsstring) : jsstring :=
  match matches with
  | [] => NO_MATCHES
  | _ => join nl (List.map (fun link => lit "- " ++ link) matches)
  end.

Definition refreshAutoNode (file : TFile) : Async unit :=
  await updating := gets (fun w => bool_decide (filePath file ∈ isUpdating w)) in
  if updating then ret tt
  else
    await resolved := resolveAutoNodeRecord file in
    match resolved with
    | None => ret tt
    | Some record =>
        tryFinally
          (await _ := modifyWorld (fun w =>
                        setIsUpdating ({[filePath file]} ∪ isUpdating w) w) in
           await vaultFiles := getMarkdownFiles in
           await matches := collectMatches file record vaultFiles [] in
           let matches :=
             sortWith localeCompare matches in
           let generatedSection := renderSection matches in
           await current := read file in
           let next :=
             mergeGeneratedSection current generatedSection
               (keyword (config record)) in
           if bool_decide (current = next) then ret tt
           else modify file next)
          (modifyWorld (fun w =>
             setIsUpdating (isUpdating w ∖ {[filePath file]}) w))
    end.

(** [files.filter((file) => this.resolveAutoNodeRecord(file))] *)
Fixpoint filterAutoNodes (files : list TFile) : Async (list TFile) :=
  match files with
  | [] => ret []
  | file :: rest =>
      await resolved := resolveAutoNodeRecord file in
      await kept := filterAutoNodes rest in
      ret (match resolved with Some _ => file :: kept | None => kept end)
  end.

Fixpoint refreshEach (autoNodes : list TFile) : Async unit :=
  match autoNodes with
  | [] => ret tt
  | autoNode :: rest =>
      await _ := refreshAutoNode autoNode in
      refreshEach rest
  end.

Definition refreshAllAutoNodes : Async unit :=
  await files := getMarkdownFiles in
  await autoNodes := filterAutoNodes files in
  refreshEach autoNodes.

Definition ensureMarkdownExtension (name : jsstring) : jsstring :=
  if endsWith (lit ".md") (toLowerCase name) then name else name ++ lit ".md".

(** [this.app.vault.createFolder(p)] *)
Definition createFolder (p : jsstring) : Async unit :=
  hostCall (CreateFolder p)
    (modifyWorld (fun w => setVaultFolders (vaultFolders w ++ [p]) w)).

(** The loop of [ensureFolder] over the parts of the path. *)
Fixpoint ensureFolderParts (current : jsstring) (parts : list jsstring)
    : Async unit :=
  match parts with
  | [] => ret tt
  | part :: rest =>
      let current :=
        match current with
        | [] => part
        | _ => current ++ lit "/" ++ part
        end in
      await existing := gets (fun w => getAbstractFileByPath w current) in
      await _ :=
        match existing with
        | Some _ => ret tt
        | None =>
            tryCatch (createFolder current)
              (fun error =>
                 if includes (lit "folder already exists") error then ret tt
                 else throw error)
        end in
      ensureFolderParts current rest
  end.

Definition isNonEmpty (s : jsstring) : bool :=
  match s with
  | [] => false
  | _ => true
  end.

Definition ensureFolder (folderPath : jsstring) : Async unit :=
  match folderPath with
  | [] => ret tt
  | _ => ensureFolderParts [] (List.filter isNonEmpty (split 47 folderPath))
  end.

(** The file that the application sees at a path: the name is the last
    part of the path, the extension what follows its last dot. *)
Definition fileAt (p : jsstring) : TFile :=
  let name := List.last (split 47 p) [] in
  match rev (split 46 name) with
  | ext :: (_ :: _) as stem => mkFile p (join (lit ".") (rev stem)) ext
  | _ => mkFile p name []
  end.

(** [this.app.fileManager.renameFile(file, newPath)] *)
Definition renameFile (file : TFile) (newPath : jsstring) : Async unit :=
  hostCall (RenameFile (filePath file))
    (modifyWorld (fun w =>
       let text := contentOf w (filePath file) in
       setVaultFiles
         (List.map (fun f => if bool_decide (filePath f = filePath file)
                             then fileAt newPath else f) (vaultFiles w))
         (setVaultData (<[newPath := text]> (delete (filePath file) (vaultData w)))
            w))).

Definition quoted (p : jsstring) : jsstring := lit "'" ++ p ++ lit "'.".

Definition renameAutoNodeFile (currentPath desiredPath : jsstring)
    : Async jsstring :=
  await known := gets (fun w => nodeRecords w !! currentPath) in
  match known with
  | None => throw (lit "Unknown auto-node record for " ++ quoted currentPath)
  | Some record =>
      await found := gets (fun w => getAbstractFileByPath w currentPath) in
      match found with
      | Some (IsFile file) =>
          let trimmed := trim desiredPath in
          match trimmed with
          | [] => throw (lit "File path cannot be empty.")
          | _ =>
              let withExtension := ensureMarkdownExtension trimmed in
              match normalizePath withExtension with
              | None =>
                  await _ := consoleError
                    (lit "[auto-node] Failed to normalize desired path") in
                  throw (lit "Invalid file path.")
              | Some normalized =>
                  if bool_decide (normalized = currentPath) then ret normalized
                  else
                    await existing :=
                      gets (fun w => getAbstractFileByPath w normalized) in
                    match existing with
                    | Some _ =>
                        throw (lit "A file already exists at " ++ quoted normalized)
                    | None =>
                        let folders := removelast (split 47 normalized) in
                        await _ :=
                          match folders with
                          | [] => ret tt
                          | _ => ensureFolder (join (lit "/") folders)
                          end in
                        await _ := renameFile file normalized in
                        await _ := modifyWorld (fun w =>
                          setNodeRecords
                            (<[normalized := mkRecord normalized (config record)]>
                               (delete currentPath (nodeRecords w))) w) in
                        await _ := saveSettings in
                        ret normalized
                    end
              end
          end
      | _ =>
          throw (lit "Auto-node file not found at " ++ quoted currentPath)
      end
  end.

End Plugin.

(** ** The debounce timer

    [window.setTimeout] and [window.clearTimeout] are a list of armed
    timers, each with its handle and the time at which it is due; the only
    callback armed is the one of [scheduleRefresh].  [passes] counts the
    calls of [refreshAllAutoNodes] the callback has made. *)

Record Scheduler : Type := mkScheduler {
  now : N;
  timers : list (nat * N);
  nextHandle : nat;
  refreshTimeout : option nat;
  passes : nat
}.

Definition clearTimeout (handle : nat) (s : Scheduler) : Scheduler :=
  mkScheduler (now s)
    (List.filter (fun t => negb (fst t =? handle)%nat) (timers s))
    (nextHandle s) (refreshTimeout s) (passes s).

Definition setTimeout (delay : N) (s : Scheduler) : nat * Scheduler :=
  (nextHandle s,
   mkScheduler (now s) (timers s ++ [(nextHandle s, (now s + delay)%N)])
     (S (nextHandle s)) (refreshTimeout s) (passes s)).

Definition setRefreshTimeout (h : option nat) (s : Scheduler) : Scheduler :=
  mkScheduler (now s) (timers s) (nextHandle s) h (passes s).

(** [scheduleRefresh(delay)]; the delay is 500 when none is given. *)
Definition scheduleRefresh (delay : N) (s : Scheduler) : Scheduler :=
  let s :=
    match refreshTimeout s with
    | Some handle => clearTimeout handle s
    | None => s
    end in
  let '(handle, s) := setTimeout delay s in
  setRefreshTimeout (Some handle) s.

Definition DEFAULT_DELAY : N := 500.

(** The callback of the timer: the handle is forgotten and one pass over
    the auto-nodes is made. *)
Definition refreshCallback (s : Scheduler) : Scheduler :=
  mkScheduler (now s) (timers s) (nextHandle s) None (S (passes s)).

(** [onunload], as far as the timer goes. *)
Definition onunload (s : Scheduler) : Scheduler :=
  match refreshTimeout s with
  | Some handle => setRefreshTimeout None (clearTimeout handle s)
  | None => s
  end.

(** The armed timer that is due first, among those due at [t] or before;
    of two due at the same time, the one armed first. *)
Fixpoint earliestDue (t : N) (l : list (nat * N)) : option (nat * N) :=
  match l with
  | [] => None
  | (h, due) :: l' =>
      match earliestDue t l' with
      | Some (h', due') =>
          if (due <=? t)%N && (due <=? due')%N then Some (h, due)
          else Some (h', due')
      | None => if (due <=? t)%N then Some (h, due) else None
      end
  end.

(** The timers due at [t] or before run, in the order in which they are
    due; every run takes one armed timer away. *)
Fixpoint runDue (fuel : nat) (t : N) (s : Scheduler) : Scheduler :=
  match fuel with
  | 0 => s
  | S fuel' =>
      match earliestDue t (timers s) with
      | None => s
      | Some (h, due) =>
          let s := clearTimeout h s in
          let s := mkScheduler (N.max (now s) due) (timers s) (nextHandle s)
                     (refreshTimeout s) (passes s) in
          runDue fuel' t (refreshCallback s)
      end
  end.

(** Time passes until [t]. *)
Definition advanceTo (t : N) (s : Scheduler) : Scheduler :=
  let s := runDue (length (timers s)) t s in
  mkScheduler (N.max (now s) t) (timers s) (nextHandle s) (refreshTimeout s)
    (passes s).

(** Change signals, each with the time at which it arrives and the delay
    it asks for, in the order of their arrival. *)
Fixpoint deliver (signals : list (N * N)) (s : Scheduler) : Scheduler :=
  match signals with
  | [] => s
  | (t, delay) :: rest => deliver rest (scheduleRefresh delay (advanceTo t s))
  end.

Definition idle (t : N) : Scheduler := mkScheduler t [] 0 None 0.

(** Arrival times of a burst: each signal arrives less than [delay] after
    the one before. *)
Fixpoint burst (delay : N) (t : N) (later : list N) : Prop :=
  match later with
  | [] => True
  | t' :: rest => (t <= t' < t + delay)%N /\ burst delay t' rest
  end.

(** ** Notions of the specification *)

(** [p] occurs in [s] at position [i]. *)
Definition occursAt (p s : jsstring) (i : nat) : Prop :=
  startsWith p (drop i s) = true.

Definition absent (p s : jsstring) : Prop := forall j, ~ occursAt p s j.

Definition firstOccurrence (p s : jsstring) (i : nat) : Prop :=
  occursAt p s i /\ forall j, j < i -> ~ occursAt p s j.

(** The first occurrence at or after a position. *)
Definition firstOccurrenceFrom (p s : jsstring) (from i : nat) : Prop :=
  from <= i /\ occursAt p s i /\ forall j, from <= j < i -> ~ occursAt p s j.

(** The expression [containsKeyword] builds for a keyword, and its test on
    a text. *)
Definition wordRegExp (ic : bool) (kw : jsstring) : RegExp :=
  mkRegExp (WordB :: chars kw ++ [WordB]) ic true 0.

Definition occursAsWord (ic : bool) (kw s : jsstring) : bool :=
  fst (Regex.test (wordRegExp ic kw) s).



(** What follows the end marker, and what precedes the start marker, in a
    text that holds them. *)
Definition contentAfterEnd (s : jsstring) : option jsstring :=
  match find AUTO_NODE_MARKER_END s with
  | Some e => Some (drop (e + length AUTO_NODE_MARKER_END) s)
  | None => None
  end.

Definition contentBeforeStart (s : jsstring) : option jsstring :=
  match find AUTO_NODE_MARKER_START s with
  | Some i => Some (take i s)
  | None => None
  end.

(** Two states of the world with the same vault, the same verdicts of the
    application and the same files in progress. *)
Definition sameVault (w w' : World) : Prop :=
  vaultFiles w' = vaultFiles w
  /\ vaultFolders w' = vaultFolders w
  /\ vaultData w' = vaultData w
  /\ vaultWrites w' = vaultWrites w
  /\ frontmatters w' = frontmatters w
  /\ faults w' = faults w
  /\ isUpdating w' = isUpdating w.

(** The registry of the second state holds the records of the first. *)
Definition registryGrows (w w' : World) : Prop :=
  forall p rec, nodeRecords w !! p = Some rec -> nodeRecords w' !! p = Some rec.

(** What one refresh of the file at [p] may change: the registry grows,
    and the vault is written at [p] only. *)
Definition refreshFrame (p : jsstring) (w w' : World) : Prop :=
  isUpdating w' = isUpdating w
  /\ vaultFiles w' = vaultFiles w
  /\ faults w' = faults w
  /\ registryGrows w w'
  /\ (exists extra, vaultWrites w' = vaultWrites w ++ extra
                    /\ Forall (fun x => x.1 = p) extra)
  /\ (forall q, q <> p -> vaultData w' !! q = vaultData w !! q).

(** ** Concrete documents *)

(** A note whose own text goes on after the end marker and ends in
    blanks. *)
Definition footerDoc : jsstring :=
  INTRO_HEADING ++ nl ++ AUTO_NODE_MARKER_START ++ nl ++ AUTO_NODE_MARKER_END
  ++ nl ++ lit "See also my notes.   ".

(** A note whose generated section holds the heading of the introduction. *)
Definition headingInsideDoc : jsstring :=
  AUTO_NODE_MARKER_START ++ nl ++ INTRO_HEADING ++ nl ++ AUTO_NODE_MARKER_END
  ++ nl.

(** A note as [buildInitialContent] writes it for the keyword "alpha",
    without the frontmatter. *)
Definition freshDoc : jsstring :=
  join nl
    [ AUTO_NODE_INTRO;
      lit "<!-- Auto-node keyword: alpha -->";
      AUTO_NODE_MARKER_START;
      lit "_Collecting links..._";
      AUTO_NODE_MARKER_END;
      [] ].

Definition plainNote : TFile := mkFile (lit "notes/plain.md") (lit "plain") (lit "md").


(** A note that starts with a keyword comment in which a line of three
    dashes stands, so that the comment is taken for a frontmatter. *)
Definition dashedCommentDoc : jsstring :=
  lit "---<!-- Auto-node keyword: a" ++ nl ++ lit "--- -->".

(** ** A concrete vault *)

(** A comparison of strings that ignores the case, for a locale. *)
Fixpoint compareIgnoringCase (a b : jsstring) : Z :=
  match a, b with
  | [], [] => 0
  | [], _ :: _ => -1
  | _ :: _, [] => 1
  | x :: a', y :: b' =>
      match (lowerUnit x ?= lowerUnit y)%N with
      | Lt => -1
      | Gt => 1
      | Eq => compareIgnoringCase a' b'
      end
  end.

(** An application that leaves paths as they are and writes wiki links. *)
Definition plainHost : HostApi :=
  mkHostApi Some (fun f _ => lit "[[" ++ basename f ++ lit "]]")
    compareIgnoringCase.

Definition noteA : TFile := mkFile (lit "A.md") (lit "A") (lit "md").
Definition noteB : TFile := mkFile (lit "B.md") (lit "B") (lit "md").
Definition hubN : TFile := mkFile (lit "N.md") (lit "N") (lit "md").
Definition hubM : TFile := mkFile (lit "M.md") (lit "M") (lit "md").

Definition alphaRule : AutoNodeConfig := mkConfig (lit "alpha") false false.

Definition noFaults : HostCall -> option jsstring := fun _ => None.

(** The vault of the end-to-end example of the specification: two notes
    and the auto-node [N.md] for the keyword "alpha". *)
Definition smallVault (hubText : jsstring) (faults : HostCall -> option jsstring)
    : World :=
  mkWorld [noteA; noteB; hubN] []
    (list_to_map [(lit "A.md", lit "alpha info");
                  (lit "B.md", lit "nothing here");
                  (lit "N.md", hubText)])
    [] ∅ faults ∅ [] ∅
    {[ lit "N.md" := mkRecord (lit "N.md") alphaRule ]} ∅.

(** The same vault with a second auto-node, [M.md], after [N.md]. *)
Definition twoHubVault (faults : HostCall -> option jsstring) : World :=
  mkWorld [noteA; noteB; hubN; hubM] []
    (list_to_map [(lit "A.md", lit "alpha info");
                  (lit "B.md", lit "nothing here");
                  (lit "N.md", freshDoc);
                  (lit "M.md", freshDoc)])
    [] ∅ faults ∅ [] ∅
    {[ lit "N.md" := mkRecord (lit "N.md") alphaRule;
       lit "M.md" := mkRecord (lit "M.md") alphaRule ]} ∅.

(** The application rejects the reading of [B.md]. *)
Definition unreadableB : HostCall -> option jsstring :=
  fun call =>
    match call with
    | CachedRead p =>
        if bool_decide (p = lit "B.md") then Some (lit "EIO: read failed") else None
    | _ => None
    end.

(** ** Notions for the registry *)



(** What a save of the settings that is not awaited leaves behind: the
    snapshot is the registry; what is stored is the registry when the
    application accepts the save, and otherwise what was stored, with one
    more error on the console. *)
Definition writtenThrough (w w' : World) : Prop :=
  settingsNodes w' = nodeRecords w'
  /\ match faults w SaveData with
     | None => storedNodes w' = nodeRecords w' /\ consoleErrors w' = consoleErrors w
     | Some _ =>
         storedNodes w' = storedNodes w
         /\ consoleErrors w'
            = consoleErrors w ++ [lit "[auto-node] Failed to save settings"]
     end.

(** The application rejects every save of the settings. *)
Definition saveRejected : HostCall -> option jsstring :=
  fun call =>
    match call with
    | SaveData => Some (lit "EACCES: data.json")
    | _ => None
    end.

Definition betaRule : AutoNodeConfig := mkConfig (lit "beta") true true.


(** The vault of the example with [N.md] not in the registry, its rule
    declared in its frontmatter instead. *)
Definition declaredVault : World :=
  mkWorld [noteA; noteB; hubN] []
    (list_to_map [(lit "A.md", lit "alpha info");
                  (lit "B.md", lit "nothing here");
                  (lit "N.md", freshDoc)])
    []
    {[ lit "N.md" :=
         {[ lit "autonodekeyword" := YString (lit "alpha");
            lit "autoNodeCaseSensitive" := YString (lit " Yes ") ]} ]}
    noFaults ∅ [] ∅ ∅ ∅.

(** ** Notions for the refresh *)

(** The application rejects no reading of the cache. *)
Definition readable (w : World) : Prop :=
  forall p, faults w (CachedRead p) = None.


(** The file is another file than the one at [target] and matches the
    rule. *)
Definition isMatchFor (w : World) (target : jsstring) (cfg : AutoNodeConfig)
    (f : TFile) : bool :=
  negb (bool_decide (filePath f = target))
  && bool_decide (containsKeyword f (contentOf w (filePath f)) cfg = Some true).

(** ** Notions for the order of the links *)

(** Every element is at most every later one. *)
Fixpoint inOrder {A} (compare : A -> A -> Z) (l : list A) : Prop :=
  match l with
  | [] => True
  | x :: l' => Forall (fun y => (compare x y <= 0)%Z) l' /\ inOrder compare l'
  end.

(** The elements that compare equal to [a], in their order. *)
Definition tiedWith {A} (compare : A -> A -> Z) (a : A) (l : list A) : list A :=
  List.filter (fun x => (compare a x =? 0)%Z) l.

(** ** Notions for the matcher *)

(** The text is of the range for which the case tables are exact. *)
Definition inTable (s : jsstring) : Prop := Forall (fun c => (c < 256)%N) s.

(** ** Notions for the timer *)

(** At most one timer is armed, and it is the one [refreshTimeout] holds. *)
Definition tidy (s : Scheduler) : Prop :=
  match refreshTimeout s with
  | Some h => exists due, timers s = [(h, due)]
  | None => timers s = []
  end.

(** ** The creation of an auto-node *)

(** A boolean in a template literal. *)
Definition showBool (b : bool) : jsstring :=
  if b then lit "true" else lit "false".

Definition buildInitialContent (cfg : AutoNodeConfig) : jsstring :=
  join nl
    [ lit "---";
      lit "autoNode: true";
      lit "autoNodeKeyword: " ++ keyword cfg;
      lit "autoNodeCaseSensitive: " ++ showBool (caseSensitive cfg);
      lit "autoNodeMatchWholeWord: " ++ showBool (matchWholeWord cfg);
      lit "---";
      [];
      AUTO_NODE_INTRO;
      lit "<!-- Auto-node keyword: " ++ keyword cfg ++ lit " -->";
      AUTO_NODE_MARKER_START;
      lit "_Collecting links..._";
      AUTO_NODE_MARKER_END;
      [] ].

(** What [ensureMarkers] appends to a text without the markers. *)
Definition markersAddition (keyword : jsstring) : jsstring :=
  join nl
    [ [];
      lit "<!-- Auto-node keyword: " ++ keyword ++ lit " -->";
      AUTO_NODE_MARKER_START;
      lit "_Collecting links..._";
      AUTO_NODE_MARKER_END;
      [] ].

Definition ensureMarkers (file : TFile) (keyword : jsstring) : Async unit :=
  await content := read file in
  if includes AUTO_NODE_MARKER_START content
     && includes AUTO_NODE_MARKER_END content
  then ret tt
  else
    let body := trimEnd content in
    modify file (body ++ markersAddition keyword).

(* ===================================================================== *)
(** * Part II: properties *)
(* ===================================================================== *)

(** ** Strings *)

Section StringFacts.

Implicit Types (p s r : list N) (c : N).

Lemma startsWith_true p s : startsWith p s = true <-> exists r, s = p ++ r.
Proof.
  revert s. induction p as [|a p IH]; intros s; simpl.
  - split; [intros _; by exists s | done].
  - destruct s as [|b s]; [split; [done | intros [r Hr]; discriminate]|].
    rewrite andb_true_iff, N.eqb_eq, IH. split.
    + intros [-> [r ->]]. by exists r.
    + intros [r Hr]. injection Hr as -> ->. eauto.
Qed.

Lemma startsWith_app p r : startsWith p (p ++ r) = true.
Proof. apply startsWith_true. by exists r. Qed.



Lemma find_Some p s i :
  find p s = Some i <->
  i <= length s /\ startsWith p (drop i s) = true
  /\ forall j, j < i -> startsWith p (drop j s) = false.
Proof.
  revert i. induction s as [|c s IH]; intros i.
  - simpl. destruct (startsWith p []) eqn:E.
    + split.
      * intros [= <-]. repeat split; [done.. | lia].
      * intros (Hi & _ & _). simpl in Hi. f_equal. lia.
    + split; [done|]. intros (_ & Hs & _). rewrite drop_nil in Hs. congruence.
  - cbn [find]. destruct (startsWith p (c :: s)) eqn:E.
    + split.
      * intros [= <-]. repeat split; [simpl; lia | done | lia].
      * intros (_ & _ & Hmin). destruct i as [|i]; [done|].
        specialize (Hmin 0 ltac:(lia)). simpl in Hmin. congruence.
    + rewrite fmap_Some. split.
      * intros (k & Hk & ->). apply IH in Hk as (Hk & Hs & Hmin).
        repeat split; [simpl; lia | done |].
        intros [|j] Hj; [done|]. simpl. apply Hmin. lia.
      * intros (Hi & Hs & Hmin).
        destruct i as [|i]; [simpl in Hs; congruence|].
        exists i. split; [|done].
        apply IH. repeat split; [simpl in Hi; lia | done |].
        intros j Hj. apply (Hmin (S j)). lia.
Qed.

Lemma find_None p s :
  find p s = None <-> forall j, startsWith p (drop j s) = false.
Proof.
  induction s as [|c s IH].
  - simpl. destruct (startsWith p []) eqn:E.
    + split; [done|]. intros Hn. specialize (Hn 0). simpl in Hn. congruence.
    + split; [|done]. intros _ j. by rewrite drop_nil.
  - cbn [find]. destruct (startsWith p (c :: s)) eqn:E.
    + split; [done|]. intros Hn. specialize (Hn 0). simpl in Hn. congruence.
    + rewrite fmap_None, IH. split.
      * intros Hn [|j]; [done|]. apply Hn.
      * intros Hn j. apply (Hn (S j)).
Qed.

End StringFacts.

Section TrimFacts.

Implicit Types (s r a : list N) (c : N).

Lemma trimEnd_app_solid a c r :
  isWhiteSpace c = false -> trimEnd (a ++ c :: r) = a ++ c :: trimEnd r.
Proof.
  intros Hc. induction a as [|x a IH]; simpl.
  - rewrite Hc. by destruct (trimEnd r).
  - rewrite IH. by destruct a.
Qed.



Lemma trimStart_solid c s : isWhiteSpace c = false -> trimStart (c :: s) = c :: s.
Proof. intros Hc. simpl. by rewrite Hc. Qed.

End TrimFacts.

Section IndexFacts.

Implicit Types (p s : list N).

Lemma indexOf_found p s i : indexOf p s = Z.of_nat i <-> find p s = Some i.
Proof.
  unfold indexOf. destruct (find p s) as [k|]; split; intros Hk; try lia.
  - f_equal. lia.
  - injection Hk as ->. done.
  - discriminate.
Qed.

Lemma indexOf_missing p s : indexOf p s = (-1)%Z <-> find p s = None.
Proof. unfold indexOf. destruct (find p s); split; intros; (lia || done). Qed.

Lemma indexOf_cases p s :
  (indexOf p s = (-1)%Z /\ find p s = None)
  \/ exists i, indexOf p s = Z.of_nat i /\ find p s = Some i.
Proof. unfold indexOf. destruct (find p s) as [i|]; eauto. Qed.

Lemma includes_true p s : includes p s = true <-> exists i, find p s = Some i.
Proof.
  unfold includes, indexOf. destruct (find p s) as [i|]; simpl.
  - split; [eauto|]. intros _. apply negb_true_iff, Z.eqb_neq. lia.
  - split; [done | by intros [i Hi]].
Qed.

Lemma find_firstOccurrence p s i : find p s = Some i <-> i <= length s /\ firstOccurrence p s i.
Proof.
  rewrite find_Some. unfold firstOccurrence, occursAt.
  split; intros (? & ? & Hmin); repeat split; try done.
  - intros j Hj. rewrite (Hmin j Hj). done.
  - intros j Hj. apply not_true_is_false. by apply Hmin.
Qed.

Lemma find_absent p s : find p s = None <-> absent p s.
Proof.
  rewrite find_None. unfold absent, occursAt. split; intros Hn j.
  - by rewrite Hn.
  - by apply not_true_is_false.
Qed.

Lemma slice_from_zero s n : slice s 0 (Z.of_nat n) = take n s.
Proof.
  unfold slice, clampIndex. cbv zeta. change (0 <? 0)%Z with false. cbv iota.
  rewrite (Z.min_l 0) by lia. change (Z.to_nat 0) with 0. rewrite drop_0, Nat.sub_0_r.
  destruct (Z.ltb_spec (Z.of_nat n) 0); [lia|].
  destruct (Z.min_spec (Z.of_nat n) (Z.of_nat (length s))) as [[? ->]|[? ->]].
  - by rewrite Nat2Z.id.
  - rewrite Nat2Z.id. rewrite !take_ge; (done || lia).
Qed.

Lemma sliceFrom_nat s n : sliceFrom s (Z.of_nat n) = drop n s.
Proof.
  unfold sliceFrom, clampIndex.
  destruct (Z.ltb_spec (Z.of_nat n) 0); [lia|].
  destruct (Z.min_spec (Z.of_nat n) (Z.of_nat (length s))) as [[? ->]|[? ->]].
  - by rewrite Nat2Z.id.
  - rewrite Nat2Z.id. rewrite !drop_ge; (done || lia).
Qed.

End IndexFacts.

(** ** The markers *)

Section MarkerFacts.

Implicit Types (s x : list N).




Lemma solid_lt : isWhiteSpace 60 = false.
Proof. reflexivity. Qed.

Lemma space_nl : isWhiteSpace 10 = true.
Proof. reflexivity. Qed.


Lemma take_marker p s i :
  occursAt p s i -> take (i + length p) s = take i s ++ p.
Proof.
  unfold occursAt. intros [r Hr]%startsWith_true.
  destruct (Nat.le_gt_cases i (length s)) as [Hi|Hgt].
  - rewrite <- (take_drop i s) at 1. rewrite Hr.
    rewrite take_app_ge by (rewrite length_take; lia).
    rewrite length_take, Nat.min_l by lia.
    replace (i + length p - i) with (length p) by lia.
    by rewrite take_app_length.
  - rewrite drop_ge in Hr by lia. destruct p; [|done].
    rewrite app_nil_r, !take_ge by (simpl; lia). done.
Qed.

End MarkerFacts.

(** C4.  The merge hands the text with its markers established to the
    last steps, and these, on any text: return it as it is when the start
    marker or the end marker is absent or the first end marker lies before
    the first start marker; otherwise they take the first start marker and
    the end marker that comes first at or after it, and replace what lies
    between the two. *)
Theorem merge_locates_markers (current generated keyword : jsstring) :
  mergeGeneratedSection current generated keyword
  = replaceBetweenMarkers
      (establishMarkers (ensureIntroSection (normalizeMarkers current)))
      generated
  /\ forall text : jsstring,
       (replaceBetweenMarkers text generated = text
        /\ (absent AUTO_NODE_MARKER_START text
            \/ absent AUTO_NODE_MARKER_END text
            \/ exists s e, firstOccurrence AUTO_NODE_MARKER_START text s
                           /\ firstOccurrence AUTO_NODE_MARKER_END text e
                           /\ e < s))
       \/ (exists s e,
             firstOccurrence AUTO_NODE_MARKER_START text s
             /\ firstOccurrenceFrom AUTO_NODE_MARKER_END text s e
             /\ replaceBetweenMarkers text generated
                = trimEnd (take (s + length AUTO_NODE_MARKER_START) text
                           ++ nl ++ nl ++ generated ++ nl ++ nl
                           ++ trimStart (drop e text))
                  ++ nl).
Proof.
  split; [reflexivity|]. intros text. unfold replaceBetweenMarkers.
  destruct (indexOf_cases AUTO_NODE_MARKER_START text)
    as [[Hs Fs]|(s & Hs & Fs)]; rewrite Hs.
  { left. split; [done|]. left. by apply find_absent. }
  destruct (indexOf_cases AUTO_NODE_MARKER_END text)
    as [[He Fe]|(e & He & Fe)]; rewrite He.
  { left. split; [|right; left; by apply find_absent].
    by rewrite orb_true_r. }
  apply find_firstOccurrence in Fs as [_ Fs], Fe as [_ Fe].
  replace (Z.of_nat s =? -1)%Z with false by (symmetry; apply Z.eqb_neq; lia).
  replace (Z.of_nat e =? -1)%Z with false by (symmetry; apply Z.eqb_neq; lia).
  simpl. destruct (Z.ltb_spec (Z.of_nat e) (Z.of_nat s)) as [Hlt|Hge].
  - left. split; [done|]. right; right. exists s, e. repeat split; try apply Fs; try apply Fe. lia.
  - right. exists s, e. split; [done|]. split.
    + destruct Fe as [Hocc Hmin]. repeat split; [lia | done |].
      intros j [_ Hj]. by apply Hmin.
    + rewrite <- Nat2Z.inj_add, slice_from_zero, sliceFrom_nat. done.
Qed.

(** ** Containment *)

Section Containment.

Implicit Types (s a r : list N).

Lemma drop_marker p s i :
  occursAt p s i -> drop i s = p ++ drop (i + length p) s.
Proof.
  unfold occursAt. intros [r Hr]%startsWith_true.
  rewrite <- drop_drop, Hr, drop_app_length. done.
Qed.

Lemma trimEnd_app_end_marker a r :
  trimEnd (a ++ AUTO_NODE_MARKER_END ++ r)
  = a ++ AUTO_NODE_MARKER_END ++ trimEnd r.
Proof.
  assert (exists t, AUTO_NODE_MARKER_END = t ++ [62%N]) as [t Ht].
  { eexists (removelast AUTO_NODE_MARKER_END). reflexivity. }
  rewrite Ht, <- !(assoc_L (++) _ [62%N]), !(assoc_L (++) a). simpl.
  by apply trimEnd_app_solid.
Qed.

Lemma trimStart_end_marker r :
  trimStart (AUTO_NODE_MARKER_END ++ r) = AUTO_NODE_MARKER_END ++ r.
Proof. reflexivity. Qed.

(** The last steps of the merge on a text that holds a start marker and,
    at or after it, the first end marker. *)
Lemma replaceBetweenMarkers_found (next generated : jsstring) (s e : nat) :
  find AUTO_NODE_MARKER_START next = Some s ->
  find AUTO_NODE_MARKER_END next = Some e ->
  s <= e ->
  replaceBetweenMarkers next generated
  = take s next ++ AUTO_NODE_MARKER_START ++ nl ++ nl ++ generated ++ nl ++ nl
    ++ AUTO_NODE_MARKER_END
    ++ trimEnd (drop (e + length AUTO_NODE_MARKER_END) next) ++ nl.
Proof.
  intros Fs Fe Hse. unfold replaceBetweenMarkers.
  pose proof Fs as Hs%indexOf_found. pose proof Fe as He%indexOf_found.
  rewrite Hs, He.
  replace (Z.of_nat s =? -1)%Z with false by (symmetry; apply Z.eqb_neq; lia).
  replace (Z.of_nat e =? -1)%Z with false by (symmetry; apply Z.eqb_neq; lia).
  replace (Z.of_nat e <? Z.of_nat s)%Z with false by (symmetry; apply Z.ltb_ge; lia).
  cbn [orb]. cbv iota.
  apply find_firstOccurrence in Fs as [_ [Fs _]], Fe as [_ [Fe _]].
  rewrite <- Nat2Z.inj_add, slice_from_zero, sliceFrom_nat.
  rewrite (take_marker _ _ _ Fs), (drop_marker _ _ _ Fe), trimStart_end_marker.
  rewrite <- !(assoc_L (++)).
  rewrite !(assoc_L (++) _ _ (AUTO_NODE_MARKER_END ++ _)).
  rewrite trimEnd_app_end_marker.
  rewrite <- !(assoc_L (++)). done.
Qed.

Lemma establishMarkers_present (next : jsstring) :
  includes AUTO_NODE_MARKER_START next = true ->
  includes AUTO_NODE_MARKER_END next = true ->
  establishMarkers next = next.
Proof. intros Hs He. unfold establishMarkers. by rewrite Hs, He. Qed.

End Containment.

(** C2, as the code has it.  When the text, after the markers are
    normalised and the introduction is ensured, holds a start marker and
    the first end marker at or after it, the merge keeps what precedes the
    start marker and, of what follows the end marker, all but the blanks
    at its end, which one line feed replaces. *)
Theorem merge_keeps_outside (current generated keyword : jsstring) (s e : nat) :
  let next := ensureIntroSection (normalizeMarkers current) in
  indexOf AUTO_NODE_MARKER_START next = Z.of_nat s ->
  indexOf AUTO_NODE_MARKER_END next = Z.of_nat e ->
  s <= e ->
  mergeGeneratedSection current generated keyword
  = take s next ++ AUTO_NODE_MARKER_START ++ nl ++ nl ++ generated ++ nl ++ nl
    ++ AUTO_NODE_MARKER_END
    ++ trimEnd (drop (e + length AUTO_NODE_MARKER_END) next) ++ nl.
Proof.
  intros next Hs%indexOf_found He%indexOf_found Hse.
  unfold mergeGeneratedSection. fold next.
  rewrite establishMarkers_present by (apply includes_true; eauto).
  by apply replaceBetweenMarkers_found.
Qed.

Lemma merge_keeps_outside_witness :
  mergeGeneratedSection footerDoc NO_MATCHES (lit "alpha")
  = take 12 (ensureIntroSection (normalizeMarkers footerDoc))
    ++ AUTO_NODE_MARKER_START ++ nl ++ nl ++ NO_MATCHES ++ nl ++ nl
    ++ AUTO_NODE_MARKER_END
    ++ trimEnd (drop (37 + length AUTO_NODE_MARKER_END)
                  (ensureIntroSection (normalizeMarkers footerDoc)))
    ++ nl.
Proof.
  apply (merge_keeps_outside footerDoc NO_MATCHES (lit "alpha") 12 37);
    [vm_compute; reflexivity | vm_compute; reflexivity | lia].
Defined.

(** C2, as the specification has it, fails: the steps that normalise the
    markers and ensure the introduction leave [footerDoc] as it is, and yet
    what follows the end marker is not the same after the merge. *)
Lemma containment_counterexample :
  normalizeMarkers footerDoc = footerDoc
  /\ ensureIntroSection footerDoc = footerDoc
  /\ find AUTO_NODE_MARKER_START footerDoc = Some 12
  /\ find AUTO_NODE_MARKER_END footerDoc = Some 37
  /\ contentAfterEnd footerDoc = Some (nl ++ lit "See also my notes.   ")
  /\ contentAfterEnd (mergeGeneratedSection footerDoc NO_MATCHES (lit "alpha"))
     = Some (nl ++ lit "See also my notes." ++ nl)
  /\ contentAfterEnd (mergeGeneratedSection footerDoc NO_MATCHES (lit "alpha"))
     <> contentAfterEnd footerDoc.
Proof. repeat split; try (vm_compute; reflexivity). vm_compute. discriminate. Qed.

(** ** Idempotence *)

Section Idempotence.

Implicit Types (p s a r rest seg : list N) (c : N).






Lemma occursAt_includes p s i : occursAt p s i -> includes p s = true.
Proof.
  intros Hocc. apply includes_true.
  destruct (find p s) as [k|] eqn:F; [eauto|].
  rewrite find_None in F. unfold occursAt in Hocc. by rewrite F in Hocc.
Qed.

Lemma includes_app_mid p a r : includes p (a ++ p ++ r) = true.
Proof.
  apply (occursAt_includes _ _ (length a)). unfold occursAt.
  rewrite drop_app_length. apply startsWith_app.
Qed.

Lemma establishMarkers_includes (x : jsstring) :
  includes AUTO_NODE_MARKER_START (establishMarkers x) = true
  /\ includes AUTO_NODE_MARKER_END (establishMarkers x) = true.
Proof.
  unfold establishMarkers.
  destruct (includes AUTO_NODE_MARKER_START x) eqn:Hs,
           (includes AUTO_NODE_MARKER_END x) eqn:He; cbn [negb orb]; try done.
  all: cbn [join]; split;
    [ rewrite !(assoc_L (++) _ _ (AUTO_NODE_MARKER_START ++ _));
      apply includes_app_mid
    | rewrite !(assoc_L (++) _ _ (AUTO_NODE_MARKER_END ++ _));
      apply includes_app_mid ].
Qed.



Lemma replaceBetweenMarkers_unchanged (next generated : jsstring) (s e : nat) :
  find AUTO_NODE_MARKER_START next = Some s ->
  find AUTO_NODE_MARKER_END next = Some e ->
  e < s ->
  replaceBetweenMarkers next generated = next.
Proof.
  intros Hs%indexOf_found He%indexOf_found Hlt. unfold replaceBetweenMarkers.
  rewrite Hs, He.
  replace (Z.of_nat e <? Z.of_nat s)%Z with true by (symmetry; apply Z.ltb_lt; lia).
  by rewrite !orb_true_r.
Qed.

Lemma ensureIntroSection_present (content : jsstring) :
  includes INTRO_HEADING content = true -> ensureIntroSection content = content.
Proof. intros Hin. unfold ensureIntroSection. by rewrite Hin. Qed.


End Idempotence.



(** The other two conditions of the idempotence are needed as well.  In
    [dashedCommentDoc] the introduction is put inside a keyword comment,
    which the next normalisation rewrites, though the heading is there and
    the body holds no [<]; and a generated body that is an end marker adds
    one end marker at every merge. *)
Example merge_needs_stable_markers :
  let once := mergeGeneratedSection dashedCommentDoc NO_MATCHES (lit "a") in
  includes INTRO_HEADING once = true
  /\ normalizeMarkers once <> once
  /\ mergeGeneratedSection once NO_MATCHES (lit "a") <> once.
Proof.
  cbv zeta. split; [vm_compute; reflexivity|]. split; vm_compute; discriminate.
Qed.

Example merge_needs_plain_body :
  let once :=
    mergeGeneratedSection freshDoc AUTO_NODE_MARKER_END (lit "alpha") in
  includes INTRO_HEADING once = true
  /\ normalizeMarkers once = once
  /\ mergeGeneratedSection once AUTO_NODE_MARKER_END (lit "alpha") <> once.
Proof.
  cbv zeta. split; [vm_compute; reflexivity|].
  split; [vm_compute; reflexivity|]. vm_compute. discriminate.
Qed.


(** ** The matcher *)

Section Matcher.

Implicit Types (kw s : list N) (c : N).

Lemma isSyntaxChar_atom c :
  atomMatch false (OneOf syntaxChars) c = isSyntaxChar c.
Proof.
  unfold atomMatch, isSyntaxChar, sameChar.
  induction syntaxChars as [|p l IH]; [done|]. simpl.
  by rewrite IH, N.eqb_sym.
Qed.

(** The escape puts a backslash before each syntax character. *)
Lemma escapeKeyword_flat_map kw :
  escapeKeyword kw
  = flat_map (fun c => if isSyntaxChar c then [92%N; c] else [c]) kw.
Proof.
  unfold escapeKeyword, replaceAll. cbn [ignoreCase source syntaxCharRe].
  generalize (@None N). induction kw as [|c kw IH]; intros prev; [done|].
  cbn [replaceGo matchItems flat_map]. rewrite isSyntaxChar_atom.
  destruct (isSyntaxChar c); cbn [fmap option_fmap option_map take app];
    by rewrite IH.
Qed.

Lemma parsePattern_escaped kw rest :
  parsePattern (escapeKeyword kw ++ rest)
  = (fun p => chars kw ++ p) <$> parsePattern rest.
Proof.
  rewrite escapeKeyword_flat_map.
  induction kw as [|c kw IH]; [simpl; by destruct (parsePattern rest)|].
  cbn [flat_map]. destruct (isSyntaxChar c) eqn:Hc.
  - cbn [app parsePattern]. rewrite Hc.
    destruct (N.eqb_spec c 92) as [->|Hne];
      [|destruct (N.eqb_spec c 98) as [->|_]; [done|]];
      cbn [N.eqb Pos.eqb]; rewrite ?Hc, IH; by destruct (parsePattern rest).
  - cbn [app parsePattern]. rewrite Hc.
    destruct (N.eqb_spec c 92) as [->|_]; [done|].
    rewrite IH. by destruct (parsePattern rest).
Qed.

(** The constructor of the expression never throws on an escaped
    keyword. *)
Lemma newRegExp_word kw (cs : bool) :
  newRegExp (lit "\b" ++ escapeKeyword kw ++ lit "\b")
    (if cs then lit "g" else lit "gi")
  = Some (wordRegExp (negb cs) kw).
Proof.
  unfold newRegExp. change (lit "\b") with [92%N; 98%N].
  cbn [app parsePattern N.eqb Pos.eqb]. rewrite parsePattern_escaped.
  cbn [parsePattern N.eqb Pos.eqb fmap option_fmap option_map].
  by destruct cs.
Qed.

Lemma test_global_miss (re : RegExp) s :
  global re = true -> lastIndex re = 0 ->
  fst (Regex.test re s) = false -> snd (Regex.test re s) = re.
Proof.
  destruct re as [p ic g li]. cbn [global lastIndex]. intros -> ->.
  unfold Regex.test. cbn [global lastIndex source ignoreCase].
  destruct (length s <? 0)%nat; [done|].
  by destruct (searchFrom _ _ _ _ _) as [[i n]|].
Qed.

(** With [matchWholeWord], the matcher tests the expression of the keyword
    on the content, on the title and on the path of the file, each from
    the start, and one match is enough. *)
Lemma containsKeyword_wholeWord (file : TFile) (content kw : jsstring) (cs : bool) :
  containsKeyword file content (mkConfig kw cs true)
  = let kw' := if cs then kw else toLowerCase kw in
    Some (occursAsWord (negb cs) kw' content
          || occursAsWord (negb cs) kw' (basename file)
          || occursAsWord (negb cs) kw' (filePath file)).
Proof.
  unfold containsKeyword. cbn [matchWholeWord caseSensitive keyword negb].
  cbv zeta. set (kw' := if cs then kw else toLowerCase kw).
  rewrite newRegExp_word. unfold occursAsWord.
  set (re := wordRegExp (negb cs) kw').
  pose proof (test_global_miss re content eq_refl eq_refl) as Hc.
  destruct (Regex.test re content) as [[] re1]; [done|].
  cbn [fst snd] in *. rewrite (Hc eq_refl).
  pose proof (test_global_miss re (basename file) eq_refl eq_refl) as Ht.
  destruct (Regex.test re (basename file)) as [[] re2]; [done|].
  cbn [fst snd] in *. by rewrite (Ht eq_refl).
Qed.

End Matcher.

(** C6.  For the keyword "cat" with [matchWholeWord], case sensitive or
    not: the expression does not match the body "concatenate" and matches
    the body "a cat sat"; so a document with the body "concatenate"
    matches only through its title or its path, and one with the body
    "a cat sat" always matches. *)
Theorem whole_word_boundary (file : TFile) (cs : bool) :
  let rule := mkConfig (lit "cat") cs true in
  occursAsWord (negb cs) (lit "cat") (lit "concatenate") = false
  /\ occursAsWord (negb cs) (lit "cat") (lit "a cat sat") = true
  /\ containsKeyword file (lit "concatenate") rule
     = Some (occursAsWord (negb cs) (lit "cat") (basename file)
             || occursAsWord (negb cs) (lit "cat") (filePath file))
  /\ containsKeyword file (lit "a cat sat") rule = Some true
  /\ containsKeyword plainNote (lit "concatenate") rule = Some false.
Proof.
  intros rule.
  assert (occursAsWord (negb cs) (lit "cat") (lit "concatenate") = false) as Hno
    by (by destruct cs).
  assert (occursAsWord (negb cs) (lit "cat") (lit "a cat sat") = true) as Hyes
    by (by destruct cs).
  assert ((if cs then lit "cat" else toLowerCase (lit "cat")) = lit "cat") as Hkw
    by (by destruct cs).
  repeat split; try done.
  - unfold rule. rewrite containsKeyword_wholeWord. cbv zeta. by rewrite Hkw, Hno.
  - unfold rule. rewrite containsKeyword_wholeWord. cbv zeta. by rewrite Hkw, Hyes.
  - unfold rule. by destruct cs.
Qed.

(** ** Case folding *)

Section MapInvariance.

(** A map of characters that the expressions cannot tell from the
    identity, on the characters of [P]. *)
Variable f : N -> N.
Variable P : N -> Prop.
Hypothesis f_word : forall c, P c -> isWordChar (f c) = isWordChar c.
Hypothesis f_canon : forall c, P c -> canonicalize (f c) = canonicalize c.
Hypothesis f_space : forall c, P c -> isWhiteSpace (f c) = isWhiteSpace c.

Local Abbreviation okBefore prev := (from_option P True prev).




Section Stars.

Variable test : N -> bool.
Variables k k' : option N -> list N -> option nat.
Hypothesis test_map : forall c, P c -> test (f c) = test c.
Hypothesis k_map : forall prev s,
  okBefore prev -> Forall P s -> k (f <$> prev) (List.map f s) = k' prev s.



End Stars.




End MapInvariance.

Section CaseTables.












End CaseTables.




(** ** The registry and the refresh *)

Ltac unfold_async :=
  unfold bind, gets, ret, throw, modifyWorld, hostCall, tryCatch, tryFinally.

Section Registry.

Lemma sameVault_refl w : sameVault w w.
Proof. by repeat split. Qed.

Lemma sameVault_trans w1 w2 w3 : sameVault w1 w2 -> sameVault w2 w3 -> sameVault w1 w3.
Proof.
  intros (?&?&?&?&?&?&?) (?&?&?&?&?&?&?). repeat split; congruence.
Qed.

Lemma registryGrows_refl w : registryGrows w w.
Proof. by intros p rec. Qed.

Lemma registryGrows_trans w1 w2 w3 :
  registryGrows w1 w2 -> registryGrows w2 w3 -> registryGrows w1 w3.
Proof. intros H12 H23 p rec Hp. by apply H23, H12. Qed.

(** The detached save never throws and touches the settings only. *)
Lemma saveSettingsDetached_effect w :
  exists w', saveSettingsDetached w = (Returned tt, w')
             /\ sameVault w w' /\ nodeRecords w' = nodeRecords w.
Proof.
  unfold saveSettingsDetached, saveSettings, consoleError. unfold_async.
  cbn [faults setSettingsNodes]. destruct (faults w SaveData); eexists; by repeat split.
Qed.

Lemma resolve_known (file : TFile) w rec :
  nodeRecords w !! filePath file = Some rec ->
  resolveAutoNodeRecord file w = (Returned (Some rec), w).
Proof. intros Hk. unfold resolveAutoNodeRecord. unfold_async. by rewrite Hk. Qed.

(** The resolution never throws; a record it returns is in the registry
    afterwards, and the vault is as before. *)
Lemma resolve_effect (file : TFile) w :
  exists r w', resolveAutoNodeRecord file w = (Returned r, w')
               /\ sameVault w w' /\ registryGrows w w'
               /\ (forall rec, r = Some rec -> nodeRecords w' !! filePath file = Some rec)
               /\ (r = None -> nodeRecords w !! filePath file = None).
Proof.
  unfold resolveAutoNodeRecord. unfold_async.
  destruct (nodeRecords w !! filePath file) as [known|] eqn:Hk.
  { exists (Some known), w.
    split; [done|]. split; [apply sameVault_refl|]. split; [apply registryGrows_refl|].
    split; [by intros rec [= <-] | done]. }
  destruct (detectAutoNodeConfig w file) as [cfg|].
  2:{ exists None, w.
      split; [done|]. split; [apply sameVault_refl|].
      split; [apply registryGrows_refl | done]. }
  set (w1 := setNodeRecords _ w).
  destruct (saveSettingsDetached_effect w1) as (w2 & Hsave & Hsame & Hrec).
  rewrite Hsave.
  eexists _, w2. split; [done|]. split; [|split; [|split]].
  - apply (sameVault_trans _ w1); [by repeat split | done].
  - intros p rec Hp. rewrite Hrec. unfold w1. cbn [nodeRecords setNodeRecords].
    rewrite lookup_insert_ne; [done|]. intros <-. congruence.
  - intros rec [= <-]. rewrite Hrec. unfold w1. cbn [nodeRecords setNodeRecords].
    by rewrite lookup_insert_eq.
  - done.
Qed.

(** Marking a file as in progress and releasing it leaves the state as it
    was, when the file was not in progress. *)
Lemma release_busy w (p : jsstring) :
  p ∉ isUpdating w ->
  let busy := setIsUpdating ({[p]} ∪ isUpdating w) w in
  setIsUpdating (isUpdating busy ∖ {[p]}) busy = w.
Proof.
  intros Hp. destruct w. unfold setIsUpdating. cbn in *. f_equal.
  apply set_eq. intros x.
  rewrite elem_of_difference, elem_of_union, elem_of_singleton.
  split; [by intros [[?|?] ?] | intros Hx; split; [by right | by intros ->]].
Qed.

Lemma release_written w (p next : jsstring) :
  p ∉ isUpdating w ->
  let busy := setIsUpdating ({[p]} ∪ isUpdating w) w in
  let written :=
    setVaultWrites (vaultWrites busy ++ [(p, next)])
      (setVaultData (<[p := next]> (vaultData busy)) busy) in
  setIsUpdating (isUpdating written ∖ {[p]}) written
  = setVaultWrites (vaultWrites w ++ [(p, next)])
      (setVaultData (<[p := next]> (vaultData w)) w).
Proof.
  intros Hp. destruct w. unfold setIsUpdating, setVaultWrites, setVaultData.
  cbn in *. f_equal. apply set_eq. intros x.
  rewrite elem_of_difference, elem_of_union, elem_of_singleton.
  split; [by intros [[?|?] ?] | intros Hx; split; [by right | by intros ->]].
Qed.

End Registry.

Section Refresh.

Context `{HostApi}.

Implicit Types (file other : TFile) (rec : AutoNodeRecord) (w : World).

(** The scan of the vault reads and changes nothing. *)
Lemma collectMatches_state file rec fs acc w :
  snd (collectMatches file rec fs acc w) = w.
Proof.
  revert acc. induction fs as [|f fs IH]; intros acc; [done|].
  cbn [collectMatches]. case_bool_decide; [apply IH|].
  unfold cachedRead. unfold_async.
  destruct (faults w _); [done|].
  destruct (containsKeyword _ _ _) as [[]|]; [apply IH | apply IH | done].
Qed.

(** Its result depends on the verdicts of the application and on the
    contents of the other files only. *)
Lemma collectMatches_ext file rec fs acc w w' :
  faults w' = faults w ->
  (forall q, q <> filePath file -> vaultData w' !! q = vaultData w !! q) ->
  fst (collectMatches file rec fs acc w') = fst (collectMatches file rec fs acc w).
Proof.
  intros Hf Hd. revert acc. induction fs as [|f fs IH]; intros acc; [done|].
  cbn [collectMatches]. case_bool_decide as Hp; [apply IH|].
  unfold cachedRead, contentOf. unfold_async. rewrite Hf, (Hd _ Hp).
  destruct (faults w _); [done|].
  destruct (containsKeyword _ _ _) as [[]|]; [apply IH | apply IH | done].
Qed.


(** One refresh of a file that is not in progress and whose record is
    known, step by step. *)
Lemma refreshAutoNode_run file w rec :
  filePath file ∉ isUpdating w ->
  nodeRecords w !! filePath file = Some rec ->
  refreshAutoNode file w
  = match fst (collectMatches file rec (List.filter isMarkdown (vaultFiles w)) [] w) with
    | Thrown e => (Thrown e, w)
    | Returned found =>
        match faults w (Read (filePath file)) with
        | Some e => (Thrown e, w)
        | None =>
            let current := contentOf w (filePath file) in
            let next :=
              mergeGeneratedSection current
                (renderSection (sortWith localeCompare found))
                (keyword (config rec)) in
            if bool_decide (current = next) then (Returned tt, w)
            else
              match faults w (Modify (filePath file)) with
              | Some e => (Thrown e, w)
              | None =>
                  (Returned tt,
                   setVaultWrites (vaultWrites w ++ [(filePath file, next)])
                     (setVaultData (<[filePath file := next]> (vaultData w)) w))
              end
        end
    end.
Proof.
  intros Hfree Hrec. unfold refreshAutoNode.
  unfold bind at 1. unfold gets at 1.
  rewrite bool_decide_eq_false_2 by done.
  unfold bind at 1. rewrite (resolve_known _ _ _ Hrec).
  set (busy := setIsUpdating ({[filePath file]} ∪ isUpdating w) w).
  assert (setIsUpdating (isUpdating busy ∖ {[filePath file]}) busy = w) as Hrel.
  { unfold busy. by apply release_busy. }
  unfold tryFinally, getMarkdownFiles. unfold bind at 1. unfold modifyWorld at 1.
  fold busy. unfold bind at 1. unfold gets at 1. unfold bind at 1.
  pose proof (collectMatches_state file rec
                (List.filter isMarkdown (vaultFiles busy)) [] busy) as Hst.
  rewrite <- (collectMatches_ext file rec _ [] w busy) by done.
  change (vaultFiles w) with (vaultFiles busy).
  destruct (collectMatches file rec _ [] busy) as [[found|e] w1].
  2:{ cbn [fst snd] in *. subst w1. unfold modifyWorld. by rewrite Hrel. }
  cbn [fst snd] in *. subst w1.
  unfold read. unfold_async. change (faults busy) with (faults w).
  destruct (faults w (Read (filePath file))); [by rewrite Hrel|].
  change (contentOf busy) with (contentOf w).
  case_bool_decide; [by rewrite Hrel|].
  unfold modify. unfold_async. change (faults busy) with (faults w).
  destruct (faults w (Modify (filePath file))); [by rewrite Hrel|].
  f_equal. by apply release_written.
Qed.

(** A refresh whose file is resolved on the way goes on as a refresh from
    the state in which the record is known. *)
Lemma refreshAutoNode_resolved file w rec w1 :
  filePath file ∉ isUpdating w ->
  resolveAutoNodeRecord file w = (Returned (Some rec), w1) ->
  refreshAutoNode file w = refreshAutoNode file w1.
Proof.
  intros Hfree Hres.
  destruct (resolve_effect file w) as (r & w1' & Hres' & Hsame & _ & Hknown & _).
  rewrite Hres in Hres'. injection Hres' as <- <-.
  specialize (Hknown rec eq_refl).
  destruct Hsame as (_&_&_&_&_&_&Hupd).
  unfold refreshAutoNode, bind, gets. cbv beta.
  rewrite Hupd, bool_decide_eq_false_2 by done.
  by rewrite Hres, (resolve_known _ _ _ Hknown).
Qed.

End Refresh.

Section Passes.

Context `{HostApi}.

Implicit Types (file other : TFile) (rec : AutoNodeRecord) (w : World).

Lemma refreshFrame_refl p w : refreshFrame p w w.
Proof.
  split; [done|]. split; [done|]. split; [done|].
  split; [apply registryGrows_refl|]. split; [|done].
  exists []. split; [by rewrite List.app_nil_r | constructor].
Qed.

Lemma refreshFrame_sameVault p w w1 w' :
  sameVault w w1 -> registryGrows w w1 -> refreshFrame p w1 w' -> refreshFrame p w w'.
Proof.
  intros (Hf & _ & Hd & Hw & _ & Hfa & Hu) Hg (Hu' & Hf' & Hfa' & Hg' & Hex & Hd').
  split; [congruence|]. split; [congruence|]. split; [congruence|].
  split; [exact (registryGrows_trans w w1 w' Hg Hg')|]. split.
  - destruct Hex as (extra & Hex & Hall). exists extra. split; [congruence | done].
  - intros q Hq. rewrite (Hd' q Hq). by rewrite Hd.
Qed.

(** Whatever a refresh does, and however it ends, the files in progress
    are the same afterwards, and nothing but the file is written. *)
Lemma refreshAutoNode_effect file w :
  exists r w', refreshAutoNode file w = (r, w') /\ refreshFrame (filePath file) w w'.
Proof.
  destruct (decide (filePath file ∈ isUpdating w)) as [Hbusy|Hfree].
  { exists (Returned tt), w. split; [|apply refreshFrame_refl].
    unfold refreshAutoNode, bind, gets. cbv beta.
    by rewrite bool_decide_eq_true_2. }
  destruct (resolve_effect file w) as (r & w1 & Hres & Hsame & Hgrow & Hknown & _).
  destruct r as [rec|].
  2:{ exists (Returned tt), w1. split.
      - unfold refreshAutoNode, bind, gets. cbv beta.
        rewrite bool_decide_eq_false_2 by done. by rewrite Hres.
      - apply (refreshFrame_sameVault _ _ w1); [done | done | apply refreshFrame_refl]. }
  specialize (Hknown rec eq_refl).
  assert (filePath file ∉ isUpdating w1) as Hfree1.
  { destruct Hsame as (_&_&_&_&_&_&->). done. }
  rewrite (refreshAutoNode_resolved _ _ _ _ Hfree Hres).
  rewrite (refreshAutoNode_run _ _ _ Hfree1 Hknown).
  destruct (fst (collectMatches _ _ _ _ _)) as [found|e].
  2:{ eexists _, _. split; [done|].
      apply (refreshFrame_sameVault _ _ w1); [done | done | apply refreshFrame_refl]. }
  destruct (faults w1 (Read _)).
  { eexists _, _. split; [done|].
    apply (refreshFrame_sameVault _ _ w1); [done | done | apply refreshFrame_refl]. }
  cbv zeta. case_bool_decide.
  { eexists _, _. split; [done|].
    apply (refreshFrame_sameVault _ _ w1); [done | done | apply refreshFrame_refl]. }
  destruct (faults w1 (Modify _)).
  { eexists _, _. split; [done|].
    apply (refreshFrame_sameVault _ _ w1); [done | done | apply refreshFrame_refl]. }
  eexists _, _. split; [done|].
  apply (refreshFrame_sameVault _ _ w1); [done | done |].
  split; [done|]. split; [done|]. split; [done|].
  split; [by intros q rec' Hq|]. split.
  - eexists [_]. split; [done|]. by repeat constructor.
  - intros q Hq. cbn. by rewrite lookup_insert_ne.
Qed.

(** The filter of the auto-nodes never throws; it keeps the files whose
    record is known, and every file it keeps has a record afterwards. *)
Lemma filterAutoNodes_effect (files : list TFile) w :
  exists autos w', filterAutoNodes files w = (Returned autos, w')
    /\ sameVault w w' /\ registryGrows w w'
    /\ (forall f, f ∈ autos -> is_Some (nodeRecords w' !! filePath f))
    /\ (forall f, f ∈ files -> is_Some (nodeRecords w !! filePath f) -> f ∈ autos).
Proof.
  revert w. induction files as [|f files IH]; intros w.
  { exists [], w. split; [done|]. split; [apply sameVault_refl|].
    split; [apply registryGrows_refl|]. split; intros f Hf; by apply elem_of_nil in Hf. }
  cbn [filterAutoNodes]. unfold bind.
  destruct (resolve_effect f w) as (r & w1 & Hres & Hsame & Hgrow & Hknown & _).
  rewrite Hres.
  destruct (IH w1) as (kept & w2 & Hrest & Hsame2 & Hgrow2 & Hkept & Hall).
  rewrite Hrest. unfold ret.
  eexists _, w2. split; [done|].
  split; [exact (sameVault_trans w w1 w2 Hsame Hsame2)|].
  split; [exact (registryGrows_trans w w1 w2 Hgrow Hgrow2)|]. split.
  - intros g Hg. destruct r as [rec|]; [|by apply Hkept].
    apply elem_of_cons in Hg as [->|Hg]; [|by apply Hkept].
    exists rec. by apply Hgrow2, Hknown.
  - intros g Hg [rec Hrec]. apply elem_of_cons in Hg as [->|Hg].
    + rewrite (resolve_known _ _ _ Hrec) in Hres. injection Hres as <- <-.
      apply elem_of_cons. by left.
    + assert (g ∈ kept) by (apply Hall; [done | exists rec; by apply Hgrow]).
      destruct r; [apply elem_of_cons; by right | done].
Qed.

Lemma refreshEach_updating (autos : list TFile) w :
  isUpdating (snd (refreshEach autos w)) = isUpdating w.
Proof.
  revert w. induction autos as [|f autos IH]; intros w; [done|].
  cbn [refreshEach]. unfold bind.
  destruct (refreshAutoNode_effect f w) as (r & w1 & Hrun & Hupd & _).
  rewrite Hrun. destruct r; cbn [snd]; [|done]. by rewrite IH.
Qed.

Lemma refreshAllAutoNodes_updating w :
  isUpdating (snd (refreshAllAutoNodes w)) = isUpdating w.
Proof.
  unfold refreshAllAutoNodes, getMarkdownFiles, bind, gets. cbv beta.
  destruct (filterAutoNodes_effect (List.filter isMarkdown (vaultFiles w)) w)
    as (autos & w1 & Hfilter & Hsame & _).
  rewrite Hfilter, refreshEach_updating.
  by destruct Hsame as (_&_&_&_&_&_&->).
Qed.

End Passes.

(** C10.  However a refresh ends, by a return or by an exception of any
    of its steps, the file it was called on is not in progress afterwards
    when it was not before, and the files in progress are those of before;
    the same holds of a whole pass, so that no file stays in progress from
    one pass to the next. *)
Theorem in_progress_guard_released `{HostApi} (file : TFile) (w w' : World)
    (r : outcome unit) :
  refreshAutoNode file w = (r, w') ->
  filePath file ∉ isUpdating w ->
  (filePath file ∉ isUpdating w')
  /\ isUpdating w' = isUpdating w
  /\ isUpdating (snd (refreshAllAutoNodes w)) = isUpdating w.
Proof.
  intros Hrun Hfree.
  destruct (refreshAutoNode_effect file w) as (r1 & w1 & Hrun1 & Hupd & _).
  rewrite Hrun in Hrun1. injection Hrun1 as <- <-.
  split; [by rewrite Hupd|]. split; [done|]. apply refreshAllAutoNodes_updating.
Qed.

Lemma in_progress_guard_released_witness :
  let w := twoHubVault unreadableB in
  fst (refreshAutoNode (H:=plainHost) hubN w) = Thrown (lit "EIO: read failed")
  /\ (filePath hubN ∉ isUpdating (snd (refreshAutoNode (H:=plainHost) hubN w)))
  /\ isUpdating (snd (refreshAutoNode (H:=plainHost) hubN w)) = isUpdating w
  /\ isUpdating (snd (refreshAllAutoNodes (H:=plainHost) w)) = isUpdating w.
Proof.
  intros w. split; [vm_compute; reflexivity|].
  apply (@in_progress_guard_released plainHost hubN w
           (snd (refreshAutoNode (H:=plainHost) hubN w))
           (fst (refreshAutoNode (H:=plainHost) hubN w)));
    [apply surjective_pairing | apply not_elem_of_empty].
Defined.

(** ** Renaming *)

(** C8.  When the record and the file of the current path exist and the
    normal form of the desired path, with its extension, is another path
    at which the vault already holds something, [renameAutoNodeFile]
    throws and the state is the one before the call: the registry, the
    settings, what is stored, the vault. *)
Theorem rename_conflict_changes_nothing `{HostApi}
    (currentPath desiredPath normalized : jsstring) (w : World)
    (record : AutoNodeRecord) (file : TFile) (existing : abstractFile) :
  nodeRecords w !! currentPath = Some record ->
  getAbstractFileByPath w currentPath = Some (IsFile file) ->
  trim desiredPath <> [] ->
  normalizePath (ensureMarkdownExtension (trim desiredPath)) = Some normalized ->
  normalized <> currentPath ->
  getAbstractFileByPath w normalized = Some existing ->
  renameAutoNodeFile currentPath desiredPath w
  = (Thrown (lit "A file already exists at " ++ quoted normalized), w).
Proof.
  intros Hrec Hfile Hdesired Hnorm Hother Htaken.
  unfold renameAutoNodeFile. unfold_async. rewrite Hrec, Hfile.
  destruct (trim desiredPath) as [|c rest] eqn:Htrim; [done|].
  rewrite Hnorm, bool_decide_eq_false_2 by done.
  by rewrite Htaken.
Qed.

Lemma rename_conflict_changes_nothing_witness :
  renameAutoNodeFile (H:=plainHost) (lit "N.md") (lit " A ")
    (smallVault freshDoc noFaults)
  = (Thrown (lit "A file already exists at " ++ quoted (lit "A.md")),
     smallVault freshDoc noFaults).
Proof.
  apply (@rename_conflict_changes_nothing plainHost (lit "N.md") (lit " A ")
           (lit "A.md") (smallVault freshDoc noFaults)
           (mkRecord (lit "N.md") alphaRule) hubN (IsFile noteA));
    try (vm_compute; reflexivity); vm_compute; discriminate.
Defined.

(** ** Writing *)

(** C5, as the code has it.  A refresh that returns has written the file
    exactly when the merged text differs from the text it read, and then
    once, with the merged text; and a second refresh right after it writes
    nothing and changes nothing when the merge leaves the merged text as it
    is. *)
Theorem write_only_when_changed `{HostApi} (file : TFile) (w w1 w' : World)
    (rec : AutoNodeRecord) :
  filePath file ∉ isUpdating w ->
  resolveAutoNodeRecord file w = (Returned (Some rec), w1) ->
  refreshAutoNode file w = (Returned tt, w') ->
  exists found,
    fst (collectMatches file rec (List.filter isMarkdown (vaultFiles w)) [] w)
    = Returned found
    /\ let generated := renderSection (sortWith localeCompare found) in
       let current := contentOf w (filePath file) in
       let next :=
         mergeGeneratedSection current generated (keyword (config rec)) in
       (current = next -> w' = w1 /\ vaultWrites w' = vaultWrites w)
       /\ (current <> next ->
           vaultWrites w' = vaultWrites w ++ [(filePath file, next)]
           /\ contentOf w' (filePath file) = next)
       /\ (mergeGeneratedSection next generated (keyword (config rec)) = next ->
           refreshAutoNode file w' = (Returned tt, w')).
Proof.
  intros Hfree Hres Hrun.
  destruct (resolve_effect file w) as (r & w1' & Hres' & Hsame & _ & Hknown & _).
  rewrite Hres in Hres'. injection Hres' as <- <-.
  specialize (Hknown rec eq_refl).
  destruct Hsame as (Hfiles & _ & Hdata & Hwrites & _ & Hfaults & Hupd).
  assert (filePath file ∉ isUpdating w1) as Hfree1 by (by rewrite Hupd).
  rewrite (refreshAutoNode_resolved _ _ _ _ Hfree Hres) in Hrun.
  rewrite (refreshAutoNode_run _ _ _ Hfree1 Hknown) in Hrun.
  assert (forall fs acc, fst (collectMatches file rec fs acc w1)
                         = fst (collectMatches file rec fs acc w)) as Hscan.
  { intros fs acc. apply collectMatches_ext; [done|]. intros q _. by rewrite Hdata. }
  rewrite Hscan, Hfiles in Hrun.
  assert (contentOf w1 (filePath file) = contentOf w (filePath file)) as Hcur
    by (unfold contentOf; by rewrite Hdata).
  rewrite Hcur in Hrun.
  destruct (fst (collectMatches file rec _ [] w)) as [found|e] eqn:Hfound;
    [|discriminate].
  exists found. split; [done|]. cbv zeta in *.
  set (generated := renderSection (sortWith localeCompare found)) in *.
  set (current := contentOf w (filePath file)) in *.
  set (next := mergeGeneratedSection current generated (keyword (config rec))) in *.
  destruct (faults w1 (Read (filePath file))) eqn:Hread; [discriminate|].
  case_bool_decide as Hsame.
  - injection Hrun as <-. split; [by intros _|]. split; [done|].
    intros _. rewrite (refreshAutoNode_run _ _ _ Hfree1 Hknown).
    rewrite Hscan, Hfiles, Hfound, Hread, Hcur. cbv zeta.
    fold generated current next. by rewrite bool_decide_eq_true_2.
  - destruct (faults w1 (Modify (filePath file))) eqn:Hmod; [discriminate|].
    injection Hrun as <-. split; [done|]. split.
    { intros _. split; [cbn; by rewrite Hwrites|].
      unfold contentOf. cbn. by rewrite lookup_insert_eq. }
    intros Hstable.
    set (w2 := setVaultWrites _ _).
    assert (filePath file ∉ isUpdating w2) as Hfree2 by done.
    assert (nodeRecords w2 !! filePath file = Some rec) as Hknown2 by done.
    rewrite (refreshAutoNode_run _ _ _ Hfree2 Hknown2).
    assert (fst (collectMatches file rec (List.filter isMarkdown (vaultFiles w2)) [] w2)
            = Returned found) as ->.
    { rewrite <- Hfound, <- Hscan, <- Hfiles. apply collectMatches_ext; [done|].
      intros q Hq. cbn. by rewrite lookup_insert_ne. }
    change (faults w2) with (faults w1). rewrite Hread.
    assert (contentOf w2 (filePath file) = next) as ->.
    { unfold contentOf. cbn. by rewrite lookup_insert_eq. }
    cbv zeta. fold generated. rewrite Hstable. by rewrite bool_decide_eq_true_2.
Qed.

Lemma write_only_when_changed_witness :
  let w := smallVault freshDoc noFaults in
  let w' := snd (refreshAutoNode (H:=plainHost) hubN w) in
  exists found,
    fst (collectMatches (H:=plainHost) hubN (mkRecord (lit "N.md") alphaRule)
           (List.filter isMarkdown (vaultFiles w)) [] w)
    = Returned found
    /\ let generated := renderSection (sortWith compareIgnoringCase found) in
       let current := contentOf w (lit "N.md") in
       let next := mergeGeneratedSection current generated (lit "alpha") in
       (current = next -> w' = w /\ vaultWrites w' = vaultWrites w)
       /\ (current <> next ->
           vaultWrites w' = vaultWrites w ++ [(lit "N.md", next)]
           /\ contentOf w' (lit "N.md") = next)
       /\ (mergeGeneratedSection next generated (lit "alpha") = next ->
           refreshAutoNode (H:=plainHost) hubN w' = (Returned tt, w')).
Proof.
  intros w w'.
  apply (@write_only_when_changed plainHost hubN w w w'
           (mkRecord (lit "N.md") alphaRule));
    [apply not_elem_of_empty | reflexivity | vm_compute; reflexivity].
Defined.

(** C5, as the specification has it, fails in its last part: in the vault
    whose auto-node holds the heading of the introduction between its
    markers, the first refresh writes the file, and the second one, with no
    file changed in between, writes it again. *)
Lemma rerun_writes_counterexample :
  let w0 := smallVault headingInsideDoc noFaults in
  let w1 := snd (refreshAutoNode (H:=plainHost) hubN w0) in
  let w2 := snd (refreshAutoNode (H:=plainHost) hubN w1) in
  fst (refreshAutoNode (H:=plainHost) hubN w0) = Returned tt
  /\ fst (refreshAutoNode (H:=plainHost) hubN w1) = Returned tt
  /\ length (vaultWrites w0) = 0
  /\ length (vaultWrites w1) = 1
  /\ length (vaultWrites w2) = 2
  /\ vaultWrites w2 <> vaultWrites w1.
Proof. repeat split; try (vm_compute; reflexivity). vm_compute. discriminate. Qed.

(** ** A file that cannot be read *)

Section ScanFailure.

Context `{HostApi}.

Implicit Types (file other : TFile) (w : World).



End ScanFailure.




(** ** The debounce timer *)

Section Debounce.

Implicit Types (s : Scheduler) (t d due : N) (h n p : nat).

(** One timer is armed, and [refreshTimeout] holds its handle. *)
Local Abbreviation armed now h due n p :=
  (mkScheduler now [(h, due)] n (Some h) p).

Lemma scheduleRefresh_armed now h due n p d :
  scheduleRefresh d (armed now h due n p) = armed now n (now + d)%N (S n) p.
Proof.
  unfold scheduleRefresh, clearTimeout, setTimeout, setRefreshTimeout. cbn.
  by rewrite Nat.eqb_refl.
Qed.

Lemma scheduleRefresh_idle now n p d :
  scheduleRefresh d (mkScheduler now [] n None p) = armed now n (now + d)%N (S n) p.
Proof. done. Qed.

Lemma advanceTo_idle now n p t :
  advanceTo t (mkScheduler now [] n None p) = mkScheduler (N.max now t) [] n None p.
Proof. done. Qed.

Lemma advanceTo_early now h due n p t :
  (t < due)%N ->
  advanceTo t (armed now h due n p) = armed (N.max now t) h due n p.
Proof.
  intros Hlt. unfold advanceTo. cbn.
  by replace (due <=? t)%N with false by (symmetry; apply N.leb_gt; lia).
Qed.

Lemma advanceTo_due now h due n p t :
  (due <= t)%N ->
  advanceTo t (armed now h due n p)
  = mkScheduler (N.max (N.max now due) t) [] n None (S p).
Proof.
  intros Hle. unfold advanceTo. cbn.
  replace (due <=? t)%N with true by (symmetry; apply N.leb_le; lia).
  unfold clearTimeout, refreshCallback. cbn. by rewrite Nat.eqb_refl.
Qed.

Lemma last_cons_default (l : list N) (a b : N) :
  List.last (a :: l) b = List.last l a.
Proof.
  revert a b. induction l as [|c l IH]; intros a b; [done|].
  change (List.last (a :: c :: l) b) with (List.last (c :: l) b).
  by rewrite !IH.
Qed.

(** Through a burst the timer is armed again and again and never runs. *)
Lemma deliver_burst d t later now h n p :
  (now <= t)%N -> burst d t later ->
  exists h' n',
    deliver (List.map (fun x => (x, d)) later) (armed t h (t + d)%N n p)
    = armed (List.last later t) h' (List.last later t + d)%N n' p.
Proof.
  revert t now h n. induction later as [|t' later IH]; intros t now h n Hnow Hb.
  { by exists h, n. }
  destruct Hb as [[Hle Hlt] Hb]. cbn [List.map deliver].
  rewrite advanceTo_early by done. rewrite scheduleRefresh_armed.
  rewrite N.max_r by done.
  destruct (IH t' t n (S n)) as (h' & n' & ->); [done | done |].
  exists h', n'. by rewrite last_cons_default.
Qed.

End Debounce.

(** C7.  Signals that arrive in a burst, each less than the delay after
    the one before, starting from an idle scheduler: while they arrive no
    pass is made; one timer is left, due a full delay after the last
    signal; before that time there is still no pass, and from that time on
    there has been exactly one.  And a signal that finds a timer pending
    takes it away and arms a new one, due a full delay from now. *)
Theorem debounce_coalesces (delay t0 first T : N) (later : list N) (n p : nat) :
  (t0 <= first)%N ->
  burst delay first later ->
  let s :=
    deliver (List.map (fun t => (t, delay)) (first :: later))
      (mkScheduler t0 [] n None p) in
  let quiet := (List.last later first + delay)%N in
  passes s = p
  /\ (exists h, timers s = [(h, quiet)] /\ refreshTimeout s = Some h)
  /\ ((T < quiet)%N -> passes (advanceTo T s) = p)
  /\ ((quiet <= T)%N ->
      passes (advanceTo T s) = S p
      /\ timers (advanceTo T s) = []
      /\ refreshTimeout (advanceTo T s) = None)
  /\ forall (pending : Scheduler) (h : nat) (d : N),
       refreshTimeout pending = Some h ->
       timers (scheduleRefresh d pending)
       = List.filter (fun t => negb (fst t =? h)%nat) (timers pending)
         ++ [(nextHandle pending, (now pending + d)%N)]
       /\ refreshTimeout (scheduleRefresh d pending) = Some (nextHandle pending).
Proof.
  intros Hstart Hburst s quiet. subst s. cbn [List.map deliver].
  rewrite advanceTo_idle, scheduleRefresh_idle, N.max_r by done.
  destruct (deliver_burst delay first later t0 n (S n) p Hstart Hburst)
    as (h' & n' & ->).
  fold quiet. split; [done|]. split; [by exists h'|]. split; [|split].
  - intros Hlt. by rewrite advanceTo_early.
  - intros Hle. by rewrite advanceTo_due.
  - intros pending h d Hpending. unfold scheduleRefresh. by rewrite Hpending.
Qed.

Lemma debounce_coalesces_witness :
  let s :=
    deliver (List.map (fun t => (t, DEFAULT_DELAY)) [1000; 1100; 1599; 2000]%N)
      (idle 0%N) in
  passes s = 0
  /\ (exists h, timers s = [(h, 2500%N)] /\ refreshTimeout s = Some h)
  /\ ((2600 < 2500)%N -> passes (advanceTo 2600 s) = 0)
  /\ ((2500 <= 2600)%N ->
      passes (advanceTo 2600 s) = 1
      /\ timers (advanceTo 2600 s) = []
      /\ refreshTimeout (advanceTo 2600 s) = None)
  /\ forall (pending : Scheduler) (h : nat) (d : N),
       refreshTimeout pending = Some h ->
       timers (scheduleRefresh d pending)
       = List.filter (fun t => negb (fst t =? h)%nat) (timers pending)
         ++ [(nextHandle pending, (now pending + d)%N)]
       /\ refreshTimeout (scheduleRefresh d pending) = Some (nextHandle pending).
Proof.
  apply (debounce_coalesces DEFAULT_DELAY 0 1000 2600 [1100; 1599; 2000]%N 0 0).
  - vm_compute. discriminate.
  - vm_compute. repeat split; discriminate || reflexivity.
Defined.

(** ** The example of the specification *)

(** With the notes "alpha info" and "nothing here" and the auto-node for
    "alpha", one refresh writes the section with the link to the first
    note only, and a second refresh writes nothing. *)
Example end_to_end :
  let w := smallVault freshDoc noFaults in
  let w' := snd (refreshAutoNode (H:=plainHost) hubN w) in
  vaultWrites w'
  = [(lit "N.md",
      AUTO_NODE_INTRO ++ nl ++ lit "<!-- Auto-node keyword: alpha -->" ++ nl
      ++ AUTO_NODE_MARKER_START ++ nl ++ nl ++ lit "- [[A]]" ++ nl ++ nl
      ++ AUTO_NODE_MARKER_END ++ nl)]
  /\ refreshAutoNode (H:=plainHost) hubN w' = (Returned tt, w').
Proof. split; vm_compute; reflexivity. Qed.

(* ===================================================================== *)
(** * Part III: further properties of the code *)
(* ===================================================================== *)

(** ** The registry *)

Section RegistryOps.

Implicit Types (w : World) (p q : jsstring) (cfg : AutoNodeConfig)
  (rec : AutoNodeRecord).

Lemma saveSettingsDetached_written w :
  exists w', saveSettingsDetached w = (Returned tt, w')
             /\ sameVault w w' /\ nodeRecords w' = nodeRecords w
             /\ writtenThrough w w'.
Proof.
  unfold saveSettingsDetached, saveSettings, consoleError, writtenThrough.
  unfold_async. cbn [faults setSettingsNodes].
  destruct (faults w SaveData) eqn:Hsave; eexists; (split; [done|]);
    unfold sameVault; cbn; by rewrite ?Hsave.
Qed.

Lemma upsert_run p cfg w :
  exists w', upsertAutoNodeRecord p cfg w = (Returned tt, w')
             /\ nodeRecords w' = <[p := mkRecord p cfg]> (nodeRecords w)
             /\ sameVault w w' /\ writtenThrough w w'.
Proof.
  unfold upsertAutoNodeRecord, bind, modifyWorld.
  set (w1 := setNodeRecords _ w).
  destruct (saveSettingsDetached_written w1) as (w' & -> & Hsame & Hrec & Hwt).
  exists w'. split; [done|]. split; [by rewrite Hrec|]. split; [|done].
  by apply (sameVault_trans w w1 w').
Qed.

Lemma remove_run p w :
  (nodeRecords w !! p = None /\ removeAutoNodeRecord p w = (Returned tt, w))
  \/ exists w', removeAutoNodeRecord p w = (Returned tt, w')
                /\ is_Some (nodeRecords w !! p)
                /\ nodeRecords w' = delete p (nodeRecords w)
                /\ sameVault w w' /\ writtenThrough w w'.
Proof.
  unfold removeAutoNodeRecord, bind, gets, modifyWorld.
  destruct (nodeRecords w !! p) as [rec|] eqn:Hp; [right | by left].
  set (w1 := setNodeRecords _ w).
  destruct (saveSettingsDetached_written w1) as (w' & -> & Hsame & Hrec & Hwt).
  exists w'. split; [done|]. split; [by eexists|]. split; [by rewrite Hrec|].
  split; [|done]. by apply (sameVault_trans w w1 w').
Qed.

Lemma rename_run oldPath newPath w :
  (nodeRecords w !! oldPath = None
   /\ renameAutoNodeRecord oldPath newPath w = (Returned tt, w))
  \/ exists rec w',
       renameAutoNodeRecord oldPath newPath w = (Returned tt, w')
       /\ nodeRecords w !! oldPath = Some rec
       /\ nodeRecords w'
          = <[newPath := mkRecord newPath (config rec)]>
              (delete oldPath (nodeRecords w))
       /\ sameVault w w' /\ writtenThrough w w'.
Proof.
  unfold renameAutoNodeRecord, bind, gets, modifyWorld.
  destruct (nodeRecords w !! oldPath) as [rec|] eqn:Hp; [right | by left].
  set (w1 := setNodeRecords _ w).
  destruct (saveSettingsDetached_written w1) as (w' & -> & Hsame & Hrec & Hwt).
  exists rec, w'. split; [done|]. split; [done|]. split; [by rewrite Hrec|].
  split; [|done]. by apply (sameVault_trans w w1 w').
Qed.

End RegistryOps.

(** X1.  The mutations of the registry write through to the settings and
    never throw: after [upsertAutoNodeRecord], after the removal of a
    known path and after the renaming of a known path the call has
    returned, the vault is as before, the snapshot of the settings is the
    registry, and what is stored is the registry unless the application
    rejects the save, in which case it is as before and the console has
    the error. *)
Theorem registry_writes_through (p q : jsstring) (cfg : AutoNodeConfig)
    (known : AutoNodeRecord) (w : World) :
  nodeRecords w !! q = Some known ->
  (exists w', upsertAutoNodeRecord p cfg w = (Returned tt, w')
              /\ sameVault w w' /\ writtenThrough w w')
  /\ (exists w', removeAutoNodeRecord q w = (Returned tt, w')
                 /\ sameVault w w' /\ writtenThrough w w')
  /\ (exists w', renameAutoNodeRecord q p w = (Returned tt, w')
                 /\ sameVault w w' /\ writtenThrough w w').
Proof.
  intros Hq. split; [|split].
  - destruct (upsert_run p cfg w) as (w' & ? & _ & ? & ?). eauto.
  - destruct (remove_run q w) as [[Hn _]|(w' & ? & _ & _ & ? & ?)]; [congruence|eauto].
  - destruct (rename_run q p w) as [[Hn _]|(r & w' & ? & _ & _ & ? & ?)];
      [congruence|eauto].
Qed.

Lemma registry_writes_through_witness :
  let w := smallVault freshDoc saveRejected in
  (exists w', upsertAutoNodeRecord (lit "B.md") betaRule w = (Returned tt, w')
              /\ sameVault w w' /\ writtenThrough w w')
  /\ (exists w', removeAutoNodeRecord (lit "N.md") w = (Returned tt, w')
                 /\ sameVault w w' /\ writtenThrough w w')
  /\ (exists w', renameAutoNodeRecord (lit "N.md") (lit "B.md") w = (Returned tt, w')
                 /\ sameVault w w' /\ writtenThrough w w').
Proof.
  apply (registry_writes_through (lit "B.md") (lit "N.md") betaRule
           (mkRecord (lit "N.md") alphaRule)).
  vm_compute. reflexivity.
Defined.

(** X2.  [renameAutoNodeRecord] moves a record from one key to another:
    the record of the old path is found under the new path, with its rule
    and with the new path as its path; the old path has no record any
    more, when the two differ; a record that was under the new path is
    replaced; every other path keeps its record.  And a path without a
    record is renamed to no effect: the state is the same, and nothing is
    saved. *)
Theorem rename_record_migrates (oldPath newPath : jsstring) (w : World) :
  (forall rec, nodeRecords w !! oldPath = Some rec ->
     let w' := snd (renameAutoNodeRecord oldPath newPath w) in
     nodeRecords w' !! newPath = Some (mkRecord newPath (config rec))
     /\ (oldPath <> newPath -> nodeRecords w' !! oldPath = None)
     /\ forall q, q <> oldPath -> q <> newPath ->
          nodeRecords w' !! q = nodeRecords w !! q)
  /\ (nodeRecords w !! oldPath = None ->
      renameAutoNodeRecord oldPath newPath w = (Returned tt, w)).
Proof.
  split.
  - intros rec Hrec w'.
    destruct (rename_run oldPath newPath w)
      as [[Hn _]|(r & w1 & Hrun & Hr & Hmap & _)]; [congruence|].
    rewrite Hrec in Hr. injection Hr as <-.
    subst w'. rewrite Hrun. cbn [snd]. rewrite Hmap.
    split; [by rewrite lookup_insert_eq|]. split.
    + intros Hne. by rewrite lookup_insert_ne, lookup_delete_eq.
    + intros q Ho Hn. by rewrite lookup_insert_ne, lookup_delete_ne.
  - intros Hnone. by destruct (rename_run oldPath newPath w)
      as [[_ ?]|(r & w1 & _ & Hr & _)]; [|congruence].
Qed.

(** X3.  Renaming a record and renaming it back restores the registry,
    when the record is filed under its own path and the other path is
    free. *)
Theorem rename_record_round_trip (oldPath newPath : jsstring)
    (rec : AutoNodeRecord) (w : World) :
  nodeRecords w !! oldPath = Some rec ->
  path rec = oldPath ->
  nodeRecords w !! newPath = None ->
  nodeRecords
    (snd (renameAutoNodeRecord newPath oldPath
            (snd (renameAutoNodeRecord oldPath newPath w))))
  = nodeRecords w.
Proof.
  intros Hrec Hpath Hfree.
  assert (oldPath <> newPath) as Hne by (intros <-; congruence).
  destruct (rename_run oldPath newPath w)
    as [[Hn _]|(r & w1 & Hrun & Hr & Hmap & _)]; [congruence|].
  rewrite Hrec in Hr. injection Hr as <-. rewrite Hrun. cbn [snd].
  destruct (rename_run newPath oldPath w1)
    as [[Hn _]|(r2 & w2 & Hrun2 & Hr2 & Hmap2 & _)].
  { rewrite Hmap, lookup_insert_eq in Hn. discriminate. }
  rewrite Hrun2. cbn [snd]. rewrite Hmap2.
  rewrite Hmap, lookup_insert_eq in Hr2. injection Hr2 as <-. cbn [config].
  rewrite Hmap. rewrite delete_insert_eq.
  rewrite (delete_id (delete oldPath (nodeRecords w)) newPath)
    by (by rewrite lookup_delete_ne).
  rewrite insert_delete_eq. apply insert_id.
  rewrite Hrec. f_equal. destruct rec as [pth c]. cbn in *. by subst pth.
Qed.

Lemma rename_record_round_trip_witness :
  nodeRecords
    (snd (renameAutoNodeRecord (lit "B.md") (lit "N.md")
            (snd (renameAutoNodeRecord (lit "N.md") (lit "B.md")
                    (smallVault freshDoc noFaults)))))
  = nodeRecords (smallVault freshDoc noFaults).
Proof.
  apply (rename_record_round_trip (lit "N.md") (lit "B.md")
           (mkRecord (lit "N.md") alphaRule));
    vm_compute; reflexivity.
Defined.

Section FolderFacts.

Context `{HostApi}.

Implicit Types (w : World) (p current : jsstring).





End FolderFacts.

Section KeyedFacts.

Context `{HostApi}.

Implicit Types (w : World) (p : jsstring) (file : TFile).


Lemma resolve_registry file w :
  exists r w',
    resolveAutoNodeRecord file w = (Returned r, w')
    /\ ((r = nodeRecords w !! filePath file /\ w' = w)
        \/ exists cfg,
             detectAutoNodeConfig w file = Some cfg
             /\ nodeRecords w !! filePath file = None
             /\ r = Some (mkRecord (filePath file) cfg)
             /\ nodeRecords w'
                = <[filePath file := mkRecord (filePath file) cfg]> (nodeRecords w)
             /\ sameVault w w'
             /\ writtenThrough w w').
Proof.
  unfold resolveAutoNodeRecord, bind, gets.
  destruct (nodeRecords w !! filePath file) eqn:Hk;
    [eexists _, _; split; [done | by left]|].
  destruct (detectAutoNodeConfig w file) as [cfg|];
    [|eexists _, _; split; [done | by left]].
  unfold modifyWorld. set (w1 := setNodeRecords _ w).
  destruct (saveSettingsDetached_written w1) as (w' & -> & Hsame & Hrec & Hwt).
  eexists _, w'. split; [done|]. right. exists cfg.
  split; [done|]. split; [done|]. split; [done|]. split; [by rewrite Hrec|].
  split; [|done]. by apply (sameVault_trans w w1 w').
Qed.


End KeyedFacts.

Section Invariants.

Context `{HostApi}.

Implicit Types (w : World) (p q : jsstring) (file : TFile).








End Invariants.



(** X5.  A file that has no record and declares a keyword in its
    frontmatter is discovered once: the resolution returns the record made
    of its path and of the declared rule, files it in the registry and
    saves the settings without touching the vault; from then on the
    resolution returns the same record and changes nothing. *)
Theorem resolve_discovers_once (file : TFile) (cfg : AutoNodeConfig) (w : World) :
  nodeRecords w !! filePath file = None ->
  detectAutoNodeConfig w file = Some cfg ->
  let record := mkRecord (filePath file) cfg in
  exists w',
    resolveAutoNodeRecord file w = (Returned (Some record), w')
    /\ nodeRecords w' = <[filePath file := record]> (nodeRecords w)
    /\ sameVault w w'
    /\ writtenThrough w w'
    /\ resolveAutoNodeRecord file w' = (Returned (Some record), w').
Proof.
  intros Hnone Hdet record.
  destruct (resolve_registry file w)
    as (r & w' & Hres & [[Hr _]|(cfg' & Hdet' & _ & -> & Hmap & Hsame & Hwt)]).
  { exfalso. unfold resolveAutoNodeRecord, bind, gets in Hres.
    rewrite Hnone, Hdet in Hres. unfold modifyWorld in Hres.
    destruct (saveSettingsDetached_written
                (setNodeRecords (<[filePath file := record]> (nodeRecords w)) w))
      as (w2 & Hsave & _).
    unfold record in Hsave. rewrite Hsave in Hres. unfold ret in Hres.
    injection Hres as <- _. by rewrite Hnone in Hr. }
  rewrite Hdet in Hdet'. injection Hdet' as <-.
  exists w'. split; [done|]. split; [done|]. split; [done|]. split; [done|].
  apply resolve_known. by rewrite Hmap, lookup_insert_eq.
Qed.

Lemma resolve_discovers_once_witness :
  let record := mkRecord (lit "N.md") (mkConfig (lit "alpha") true false) in
  exists w',
    resolveAutoNodeRecord hubN declaredVault = (Returned (Some record), w')
    /\ nodeRecords w' = <[lit "N.md" := record]> (nodeRecords declaredVault)
    /\ sameVault declaredVault w'
    /\ writtenThrough declaredVault w'
    /\ resolveAutoNodeRecord hubN w' = (Returned (Some record), w').
Proof.
  apply (resolve_discovers_once hubN (mkConfig (lit "alpha") true false)
           declaredVault); vm_compute; reflexivity.
Defined.

(** ** The refresh *)

Section Scan.

Context `{HostApi}.

Implicit Types (w : World) (file : TFile) (rec : AutoNodeRecord).

(** The matcher never throws: the constructor of the expression accepts
    every escaped keyword. *)
Lemma containsKeyword_total file (content : jsstring) (cfg : AutoNodeConfig) :
  exists b, containsKeyword file content cfg = Some b.
Proof.
  destruct cfg as [kw cs [|]].
  - rewrite containsKeyword_wholeWord. eauto.
  - unfold containsKeyword. cbn [matchWholeWord negb]. eauto.
Qed.

Lemma collectMatches_readable file rec (files : list TFile) (acc : list jsstring) w :
  readable w ->
  fst (collectMatches file rec files acc w)
  = Returned
      (acc ++ List.map (fun f => generateMarkdownLink f (filePath file))
                (List.filter (isMatchFor w (filePath file) (config rec)) files)).
Proof.
  intros Hread. revert acc.
  induction files as [|f files IH]; intros acc; [by rewrite List.app_nil_r|].
  cbn [collectMatches List.filter]. unfold isMatchFor at 1.
  case_bool_decide as Hself; cbn [negb andb]; [apply IH|].
  unfold cachedRead, hostCall, bind, gets. rewrite Hread.
  destruct (containsKeyword_total f (contentOf w (filePath f)) (config rec))
    as [[] Hb]; rewrite Hb.
  - rewrite bool_decide_eq_true_2 by done. cbn [List.map].
    rewrite IH. by rewrite <- List.app_assoc.
  - rewrite bool_decide_eq_false_2 by done. apply IH.
Qed.

End Scan.

(** X6.  When every file can be read from the cache, the scan of a refresh
    finds the links to the markdown files that match the rule, in the
    order of the vault, and never a link to the target itself, whatever
    the target holds. *)
Theorem scan_lists_matches `{HostApi} (file : TFile) (rec : AutoNodeRecord)
    (files : list TFile) (w : World) :
  readable w ->
  exists found,
    fst (collectMatches file rec files [] w) = Returned found
    /\ found
       = List.map (fun f => generateMarkdownLink f (filePath file))
           (List.filter (isMatchFor w (filePath file) (config rec)) files)
    /\ forall f, f ∈ files -> filePath f = filePath file ->
         isMatchFor w (filePath file) (config rec) f = false.
Proof.
  intros Hread. eexists. split; [by apply collectMatches_readable|].
  split; [done|]. intros f _ Hf. unfold isMatchFor.
  by rewrite bool_decide_eq_true_2.
Qed.

Lemma scan_lists_matches_witness :
  exists found,
    fst (collectMatches (H:=plainHost) hubN (mkRecord (lit "N.md") alphaRule)
           [noteA; noteB; hubN] [] (smallVault (lit "alpha alpha") noFaults))
    = Returned found
    /\ found
       = List.map (fun f => generateMarkdownLink (HostApi:=plainHost) f (lit "N.md"))
           (List.filter
              (isMatchFor (smallVault (lit "alpha alpha") noFaults) (lit "N.md")
                 alphaRule)
              [noteA; noteB; hubN])
    /\ forall f, f ∈ [noteA; noteB; hubN] -> filePath f = lit "N.md" ->
         isMatchFor (smallVault (lit "alpha alpha") noFaults) (lit "N.md")
           alphaRule f = false.
Proof.
  apply (@scan_lists_matches plainHost hubN (mkRecord (lit "N.md") alphaRule)
           [noteA; noteB; hubN] (smallVault (lit "alpha alpha") noFaults)).
  intros p. reflexivity.
Defined.


Section RefreshMore.

Context `{HostApi}.

Implicit Types (w : World) (file : TFile) (rec : AutoNodeRecord).

(** A refresh ends in the state in which its file was resolved, or in
    that state with one write of the file. *)
Lemma refreshAutoNode_outcome file w :
  exists r w1 w',
    refreshAutoNode file w = (r, w')
    /\ sameVault w w1 /\ registryGrows w w1
    /\ (w' = w1
        \/ exists rec next,
             nodeRecords w1 !! filePath file = Some rec
             /\ r = Returned tt
             /\ next <> contentOf w (filePath file)
             /\ w' = setVaultWrites (vaultWrites w1 ++ [(filePath file, next)])
                       (setVaultData (<[filePath file := next]> (vaultData w1)) w1)).
Proof.
  destruct (decide (filePath file ∈ isUpdating w)) as [Hbusy|Hfree].
  { exists (Returned tt), w, w. split.
    - unfold refreshAutoNode, bind, gets. cbv beta.
      by rewrite bool_decide_eq_true_2.
    - split; [apply sameVault_refl|]. split; [apply registryGrows_refl | by left]. }
  destruct (resolve_effect file w) as (r & w1 & Hres & Hsame & Hgrow & Hknown & _).
  destruct r as [rec|].
  2:{ exists (Returned tt), w1, w1. split; [|by auto].
      unfold refreshAutoNode, bind, gets. cbv beta.
      rewrite bool_decide_eq_false_2 by done. by rewrite Hres. }
  specialize (Hknown rec eq_refl).
  assert (filePath file ∉ isUpdating w1) as Hfree1.
  { destruct Hsame as (_&_&_&_&_&_&->). done. }
  assert (contentOf w1 (filePath file) = contentOf w (filePath file)) as Hcur.
  { unfold contentOf. destruct Hsame as (_&_&->&_). done. }
  rewrite (refreshAutoNode_resolved _ _ _ _ Hfree Hres).
  rewrite (refreshAutoNode_run _ _ _ Hfree1 Hknown).
  destruct (fst (collectMatches _ _ _ _ _)) as [found|e];
    [|eexists _, w1, _; split; [done | by auto]].
  destruct (faults w1 (Read _)); [eexists _, w1, _; split; [done | by auto]|].
  cbv zeta. case_bool_decide as Hsame'; [eexists _, w1, _; split; [done | by auto]|].
  destruct (faults w1 (Modify _)); [eexists _, w1, _; split; [done | by auto]|].
  eexists _, w1, _. split; [done|]. split; [done|]. split; [done|].
  right. eexists rec, _. split; [done|]. split; [done|]. split; [|done].
  rewrite <- Hcur. congruence.
Qed.

End RefreshMore.

(** X8.  A refresh writes at most once, and only its own file: the other
    files keep their text, the list of files and the verdicts of the
    application stay, and a write changes the text of the file; a file
    that is in progress, or that has no record and declares no keyword,
    is left alone altogether, the state being the same after the call. *)
Theorem refresh_touches_only_target `{HostApi} (file : TFile) (w : World) :
  let w' := snd (refreshAutoNode file w) in
  (exists written,
     vaultWrites w' = vaultWrites w ++ written
     /\ length written <= 1
     /\ Forall (fun x => x.1 = filePath file
                         /\ x.2 <> contentOf w (filePath file)
                         /\ contentOf w' (filePath file) = x.2) written)
  /\ (forall q, q <> filePath file -> contentOf w' q = contentOf w q)
  /\ vaultFiles w' = vaultFiles w
  /\ faults w' = faults w
  /\ (filePath file ∈ isUpdating w
      \/ (nodeRecords w !! filePath file = None
          /\ detectAutoNodeConfig w file = None) ->
      refreshAutoNode file w = (Returned tt, w)).
Proof.
  intros w'. subst w'.
  assert (filePath file ∈ isUpdating w
          \/ (nodeRecords w !! filePath file = None
              /\ detectAutoNodeConfig w file = None) ->
          refreshAutoNode file w = (Returned tt, w)) as Hidle.
  { intros [Hbusy|[Hnone Hdet]].
    - unfold refreshAutoNode, bind, gets. cbv beta.
      by rewrite bool_decide_eq_true_2.
    - unfold refreshAutoNode, resolveAutoNodeRecord, bind, gets. cbv beta.
      destruct (bool_decide (filePath file ∈ isUpdating w)); [done|].
      cbv beta. rewrite Hnone. cbv beta. by rewrite Hdet. }
  destruct (refreshAutoNode_outcome file w)
    as (r & w1 & w' & Hrun & Hsame & _ & Hcase).
  rewrite Hrun. cbn [snd].
  pose proof Hsame as (Hfiles & _ & Hdata & Hwrites & _ & Hfaults & _).
  split; [|split; [|split; [|split]]].
  - destruct Hcase as [->|(rec & next & _ & _ & Hnext & ->)].
    + exists []. rewrite List.app_nil_r. split; [done|]. split; [cbn; lia | constructor].
    + exists [(filePath file, next)]. cbn. split; [by rewrite Hwrites|].
      split; [lia|]. constructor; [|constructor]. cbn. split; [done|].
      split; [done|]. unfold contentOf. cbn. by rewrite lookup_insert_eq.
  - intros q Hq. destruct Hcase as [->|(rec & next & _ & _ & _ & ->)];
      unfold contentOf; cbn; [by rewrite Hdata|].
    by rewrite lookup_insert_ne, Hdata.
  - by destruct Hcase as [->|(rec & next & _ & _ & _ & ->)].
  - by destruct Hcase as [->|(rec & next & _ & _ & _ & ->)].
  - by rewrite <- Hrun.
Qed.

Lemma refresh_touches_only_target_witness :
  refreshAutoNode (H:=plainHost) noteA (smallVault freshDoc noFaults)
  = (Returned tt, smallVault freshDoc noFaults).
Proof.
  apply (@refresh_touches_only_target plainHost noteA (smallVault freshDoc noFaults)).
  right. split; vm_compute; reflexivity.
Defined.

Section PassMore.

Context `{HostApi}.

Implicit Types (w : World) (file : TFile) (rec : AutoNodeRecord).

Lemma filterAutoNodes_sub (files : list TFile) w (autos : list TFile) w' :
  filterAutoNodes files w = (Returned autos, w') ->
  forall f, f ∈ autos -> f ∈ files.
Proof.
  revert w autos w'. induction files as [|g files IH]; intros w autos w'.
  { intros [= <- _] f Hf. done. }
  cbn [filterAutoNodes]. unfold bind.
  destruct (resolveAutoNodeRecord g w) as [[r|e] w1]; [|done].
  destruct (filterAutoNodes files w1) as [[kept|e] w2] eqn:Hrest; [|done].
  unfold ret. intros [= <- _] f Hf.
  assert (f = g \/ f ∈ kept) as [->|Hk].
  { destruct r; [apply elem_of_cons in Hf; tauto | tauto]. }
  - apply elem_of_cons. by left.
  - apply elem_of_cons. right. by apply (IH w1 kept w2).
Qed.

Lemma refreshEach_writes (autos : list TFile) w :
  exists r w' written,
    refreshEach autos w = (r, w')
    /\ vaultWrites w' = vaultWrites w ++ written
    /\ Forall (fun x => exists f, f ∈ autos /\ filePath f = x.1) written
    /\ registryGrows w w'
    /\ vaultFiles w' = vaultFiles w
    /\ forall q, (forall f, f ∈ autos -> filePath f <> q) ->
         vaultData w' !! q = vaultData w !! q.
Proof.
  revert w. induction autos as [|f autos IH]; intros w.
  { exists (Returned tt), w, []. rewrite List.app_nil_r.
    split; [done|]. split; [done|]. split; [constructor|].
    split; [apply registryGrows_refl | done]. }
  cbn [refreshEach]. unfold bind.
  destruct (refreshAutoNode_effect f w)
    as (r & w1 & -> & _ & Hfiles & _ & Hgrow & (x1 & Hw1 & Hall1) & Hd1).
  assert (Forall (fun x => exists g, g ∈ f :: autos /\ filePath g = x.1) x1) as Hx1.
  { eapply Forall_impl; [exact Hall1|]. intros x Hx. exists f.
    split; [apply elem_of_cons; by left | done]. }
  destruct r as [[]|e].
  2:{ exists (Thrown e), w1, x1. split; [done|]. split; [done|]. split; [done|].
      split; [done|]. split; [done|]. intros q Hq. apply Hd1. intros Heq.
      apply (Hq f); [apply elem_of_cons; by left | by symmetry]. }
  destruct (IH w1) as (r & w2 & x2 & -> & Hw2 & Hall2 & Hgrow2 & Hfiles2 & Hd2).
  exists r, w2, (x1 ++ x2). split; [done|].
  split; [by rewrite Hw2, Hw1, <- List.app_assoc|]. split.
  { apply Forall_app. split; [done|]. eapply Forall_impl; [exact Hall2|].
    intros x (g & Hg & Hgx). exists g. split; [apply elem_of_cons; by right | done]. }
  split; [exact (registryGrows_trans w w1 w2 Hgrow Hgrow2)|].
  split; [congruence|]. intros q Hq. rewrite Hd2, Hd1; [done | |].
  - intros Heq. apply (Hq f); [apply elem_of_cons; by left | by symmetry].
  - intros g Hg. apply Hq. apply elem_of_cons. by right.
Qed.



End PassMore.

(** X9.  A pass writes auto-nodes only: every file it writes is a
    markdown file of the vault that has a record in the registry
    afterwards, and the text of a file without a record is the same after
    the pass, however the pass ends. *)
Theorem pass_writes_only_auto_nodes `{HostApi} (w : World) :
  let w' := snd (refreshAllAutoNodes w) in
  (exists written,
     vaultWrites w' = vaultWrites w ++ written
     /\ Forall (fun x => is_Some (nodeRecords w' !! x.1)
                         /\ exists f, f ∈ List.filter isMarkdown (vaultFiles w)
                                      /\ filePath f = x.1) written)
  /\ vaultFiles w' = vaultFiles w
  /\ forall q, nodeRecords w' !! q = None -> contentOf w' q = contentOf w q.
Proof.
  intros w'. subst w'.
  unfold refreshAllAutoNodes, getMarkdownFiles, bind, gets. cbv beta.
  destruct (filterAutoNodes_effect (List.filter isMarkdown (vaultFiles w)) w)
    as (autos & w1 & Hfilter & Hsame & Hgrow & Hrecs & _).
  rewrite Hfilter.
  pose proof Hsame as (Hfiles & _ & Hdata & Hwrites & _).
  destruct (refreshEach_writes autos w1)
    as (r & w2 & written & -> & Hw2 & Hall & Hgrow2 & Hfiles2 & Hd2).
  cbn [snd].
  assert (forall f, f ∈ autos -> f ∈ List.filter isMarkdown (vaultFiles w)) as Hsub
    by (by apply (filterAutoNodes_sub _ w autos w1)).
  split; [|split].
  - exists written. split; [by rewrite Hw2, Hwrites|].
    eapply Forall_impl; [exact Hall|]. intros x (f & Hf & Hfx). split.
    + destruct (Hrecs f Hf) as [rec Hrec]. exists rec. rewrite <- Hfx.
      by apply Hgrow2.
    + exists f. split; [by apply Hsub | done].
  - congruence.
  - intros q Hq. unfold contentOf. rewrite Hd2, Hdata; [done|].
    intros f Hf <-. destruct (Hrecs f Hf) as [rec Hrec].
    apply Hgrow2 in Hrec. congruence.
Qed.



(** ** The texts *)

Section TextFacts.

Implicit Types (s a r content : list N).

Lemma intro_starts_with_heading :
  exists rest, AUTO_NODE_INTRO = INTRO_HEADING ++ rest.
Proof. eexists (drop (length INTRO_HEADING) AUTO_NODE_INTRO). reflexivity. Qed.

Lemma trimEnd_app_heading a r :
  trimEnd (a ++ INTRO_HEADING ++ r) = a ++ INTRO_HEADING ++ trimEnd r.
Proof.
  assert (exists t, INTRO_HEADING = t ++ [101%N]) as [t Ht].
  { eexists (removelast INTRO_HEADING). reflexivity. }
  rewrite Ht, <- !(assoc_L (++) _ [101%N]), !(assoc_L (++) a). cbn [app].
  by apply trimEnd_app_solid.
Qed.

Lemma ensureIntroSection_heading content :
  includes INTRO_HEADING (ensureIntroSection content) = true.
Proof.
  unfold ensureIntroSection.
  destruct (includes INTRO_HEADING content) eqn:Hin; [done|].
  destruct intro_starts_with_heading as [rest Hintro].
  destruct (firstMatch frontmatterRe content) as [frontmatter|].
  - rewrite Hintro, <- !(assoc_L (++)), trimEnd_app_heading.
    rewrite <- !(assoc_L (++)). apply includes_app_mid.
  - destruct (trimStart content); rewrite Hintro.
    + apply (includes_app_mid _ []).
    + rewrite <- !(assoc_L (++)). apply (includes_app_mid _ []).
Qed.

Lemma replaceBetweenMarkers_includes (next generated : jsstring) :
  includes AUTO_NODE_MARKER_START next = true ->
  includes AUTO_NODE_MARKER_END next = true ->
  includes AUTO_NODE_MARKER_START (replaceBetweenMarkers next generated) = true
  /\ includes AUTO_NODE_MARKER_END (replaceBetweenMarkers next generated) = true.
Proof.
  intros Hs He. pose proof Hs as [s Fs]%includes_true.
  pose proof He as [e Fe]%includes_true.
  destruct (Nat.le_gt_cases s e) as [Hse|Hlt].
  - rewrite (replaceBetweenMarkers_found next generated s e Fs Fe Hse). split.
    + apply includes_app_mid.
    + rewrite !(assoc_L (++) _ _ (AUTO_NODE_MARKER_END ++ _)).
      apply includes_app_mid.
  - by rewrite (replaceBetweenMarkers_unchanged next generated s e Fs Fe Hlt).
Qed.

End TextFacts.

(** X11.  [ensureIntroSection] always returns a text that holds the
    heading of the introduction, and so changes nothing when it is applied
    again. *)
Theorem intro_is_ensured (content : jsstring) :
  includes INTRO_HEADING (ensureIntroSection content) = true
  /\ ensureIntroSection (ensureIntroSection content) = ensureIntroSection content.
Proof.
  split; [apply ensureIntroSection_heading|].
  apply ensureIntroSection_present, ensureIntroSection_heading.
Qed.

(** X12.  The result of a merge always holds a start marker and an end
    marker, whatever the text, the generated body and the keyword are. *)
Theorem merge_establishes_markers (current generated keyword : jsstring) :
  includes AUTO_NODE_MARKER_START
    (mergeGeneratedSection current generated keyword) = true
  /\ includes AUTO_NODE_MARKER_END
       (mergeGeneratedSection current generated keyword) = true.
Proof.
  unfold mergeGeneratedSection.
  destruct (establishMarkers_includes
              (ensureIntroSection (normalizeMarkers current))) as [Hs He].
  by apply replaceBetweenMarkers_includes.
Qed.

(** X13.  The name [ensureMarkdownExtension] returns ends in [.md], in
    whatever case, and the function changes nothing when it is applied
    again. *)
Theorem markdown_extension_ensured (name : jsstring) :
  endsWith (lit ".md") (toLowerCase (ensureMarkdownExtension name)) = true
  /\ ensureMarkdownExtension (ensureMarkdownExtension name)
     = ensureMarkdownExtension name.
Proof.
  assert (endsWith (lit ".md") (toLowerCase (ensureMarkdownExtension name)) = true)
    as Hends.
  { unfold ensureMarkdownExtension.
    destruct (endsWith (lit ".md") (toLowerCase name)) eqn:Hname; [done|].
    unfold toLowerCase, endsWith. rewrite map_app, rev_app_distr.
    apply startsWith_app. }
  split; [done|].
  unfold ensureMarkdownExtension at 1. by rewrite Hends.
Qed.

(** ** The order of the links *)

Section SortFacts.

Context {A : Type} (compare : A -> A -> Z).

Lemma insertSorted_perm (x : A) (l : list A) :
  insertSorted compare x l ≡ₚ x :: l.
Proof.
  induction l as [|y l IH]; [done|]. cbn [insertSorted].
  destruct (compare x y <=? 0)%Z; [done|].
  rewrite IH. apply Permutation_swap.
Qed.

Lemma sortWith_perm (l : list A) : sortWith compare l ≡ₚ l.
Proof.
  induction l as [|x l IH]; [done|].
  unfold sortWith in *. cbn [fold_right]. by rewrite insertSorted_perm, IH.
Qed.

Lemma insertSorted_inOrder (x : A) (l : list A) :
  (forall a b, (compare a b <= 0)%Z \/ (compare b a <= 0)%Z) ->
  (forall a b c, (compare a b <= 0)%Z -> (compare b c <= 0)%Z ->
                 (compare a c <= 0)%Z) ->
  inOrder compare l -> inOrder compare (insertSorted compare x l).
Proof.
  intros Htotal Htrans. induction l as [|y l IH]; intros Hl.
  { cbn. split; [apply List.Forall_nil | done]. }
  destruct Hl as [Hy Hl]. cbn [insertSorted].
  destruct (compare x y <=? 0)%Z eqn:Hxy.
  - apply Z.leb_le in Hxy. cbn [inOrder]. split; [|done].
    apply List.Forall_cons; [done|].
    eapply List.Forall_impl; [|exact Hy]. intros z Hz. cbn in Hz. eauto.
  - apply Z.leb_gt in Hxy. cbn [inOrder]. split; [|by apply IH].
    rewrite insertSorted_perm. apply List.Forall_cons; [|done].
    destruct (Htotal x y); [lia | done].
Qed.

Lemma insertSorted_tied (a x : A) (l : list A) :
  (forall a x y, compare a x = 0%Z -> compare a y = 0%Z ->
                 (compare x y <= 0)%Z) ->
  tiedWith compare a (insertSorted compare x l) = tiedWith compare a (x :: l).
Proof.
  intros Hties. induction l as [|y l IH]; [done|]. cbn [insertSorted].
  destruct (compare x y <=? 0)%Z eqn:Hxy; [done|].
  apply Z.leb_gt in Hxy. unfold tiedWith in *.
  cbn [List.filter] in *. rewrite IH.
  destruct (compare a x =? 0)%Z eqn:Hx, (compare a y =? 0)%Z eqn:Hy; try done.
  apply Z.eqb_eq in Hx, Hy. specialize (Hties a x y Hx Hy). lia.
Qed.

End SortFacts.

(** X14.  Sorting the links loses none and adds none: the sorted list is
    a rearrangement of the list of the matches. *)
Theorem sort_keeps_every_link {A} (compare : A -> A -> Z) (l : list A) :
  sortWith compare l ≡ₚ l
  /\ length (sortWith compare l) = length l
  /\ forall x, x ∈ sortWith compare l <-> x ∈ l.
Proof.
  pose proof (sortWith_perm compare l) as Hperm.
  split; [done|]. split; [by rewrite Hperm|].
  intros x. by rewrite Hperm.
Qed.

(** X15.  With a comparison that relates any two links and is
    transitive, the sorted list is in order: every link is at most every
    later one. *)
Theorem sort_puts_links_in_order {A} (compare : A -> A -> Z) (l : list A) :
  (forall a b, (compare a b <= 0)%Z \/ (compare b a <= 0)%Z) ->
  (forall a b c, (compare a b <= 0)%Z -> (compare b c <= 0)%Z ->
                 (compare a c <= 0)%Z) ->
  inOrder compare (sortWith compare l).
Proof.
  intros Htotal Htrans. induction l as [|x l IH]; [done|].
  unfold sortWith in *. cbn [fold_right]. by apply insertSorted_inOrder.
Qed.

(** X16.  The sort is stable: with a comparison for which two links that
    tie with a third are in order either way, the links that tie with a
    given one keep the order in which they were found. *)
Theorem sort_keeps_ties_in_place {A} (compare : A -> A -> Z) (a : A)
    (l : list A) :
  (forall a x y, compare a x = 0%Z -> compare a y = 0%Z ->
                 (compare x y <= 0)%Z) ->
  tiedWith compare a (sortWith compare l) = tiedWith compare a l.
Proof.
  intros Hties. induction l as [|x l IH]; [done|].
  unfold sortWith in *. cbn [fold_right].
  rewrite insertSorted_tied by done.
  unfold tiedWith in *. cbn [List.filter]. by rewrite IH.
Qed.

Section IgnoringCase.

Implicit Types (a b c : jsstring).

Lemma compareIgnoringCase_flip a b :
  compareIgnoringCase b a = (- compareIgnoringCase a b)%Z.
Proof.
  revert b. induction a as [|x a IH]; intros [|y b]; cbn; try done.
  rewrite (N.compare_antisym (lowerUnit x) (lowerUnit y)).
  destruct (lowerUnit x ?= lowerUnit y)%N; cbn; [apply IH | done | done].
Qed.

Lemma compareIgnoringCase_total a b :
  (compareIgnoringCase a b <= 0)%Z \/ (compareIgnoringCase b a <= 0)%Z.
Proof. rewrite (compareIgnoringCase_flip a b). lia. Qed.

Lemma compareIgnoringCase_trans a b c :
  (compareIgnoringCase a b <= 0)%Z -> (compareIgnoringCase b c <= 0)%Z ->
  (compareIgnoringCase a c <= 0)%Z.
Proof.
  revert b c. induction a as [|x a IH]; intros [|y b] [|z c]; cbn; try lia.
  destruct (N.compare_spec (lowerUnit x) (lowerUnit y)) as [Hxy|Hxy|Hxy];
    destruct (N.compare_spec (lowerUnit y) (lowerUnit z)) as [Hyz|Hyz|Hyz];
    destruct (N.compare_spec (lowerUnit x) (lowerUnit z)) as [Hxz|Hxz|Hxz];
    try lia.
  apply IH.
Qed.

Lemma compareIgnoringCase_ties a b c :
  compareIgnoringCase a b = 0%Z -> compareIgnoringCase a c = 0%Z ->
  (compareIgnoringCase b c <= 0)%Z.
Proof.
  revert b c. induction a as [|x a IH]; intros [|y b] [|z c]; cbn; try lia.
  destruct (N.compare_spec (lowerUnit x) (lowerUnit y)) as [Hxy|Hxy|Hxy];
    destruct (N.compare_spec (lowerUnit x) (lowerUnit z)) as [Hxz|Hxz|Hxz];
    destruct (N.compare_spec (lowerUnit y) (lowerUnit z)) as [Hyz|Hyz|Hyz];
    try lia.
  apply IH.
Qed.

End IgnoringCase.

Lemma sort_puts_links_in_order_witness :
  inOrder compareIgnoringCase
    (sortWith compareIgnoringCase [lit "[[b]]"; lit "[[A]]"; lit "[[a]]"]).
Proof.
  apply (sort_puts_links_in_order compareIgnoringCase
           [lit "[[b]]"; lit "[[A]]"; lit "[[a]]"]).
  - apply compareIgnoringCase_total.
  - apply compareIgnoringCase_trans.
Defined.

Lemma sort_keeps_ties_in_place_witness :
  tiedWith compareIgnoringCase (lit "[[a]]")
    (sortWith compareIgnoringCase [lit "[[b]]"; lit "[[A]]"; lit "[[a]]"])
  = tiedWith compareIgnoringCase (lit "[[a]]")
      [lit "[[b]]"; lit "[[A]]"; lit "[[a]]"].
Proof.
  apply (sort_keeps_ties_in_place compareIgnoringCase (lit "[[a]]")
           [lit "[[b]]"; lit "[[A]]"; lit "[[a]]"]).
  apply compareIgnoringCase_ties.
Defined.

(** ** The timer *)

Section TimerFacts.

Implicit Types (s : Scheduler) (t d : N).

Lemma tidy_cases s :
  tidy s ->
  (exists now n p, s = mkScheduler now [] n None p)
  \/ (exists now h due n p, s = mkScheduler now [(h, due)] n (Some h) p).
Proof.
  destruct s as [now0 timers0 n rt p]. unfold tidy. cbn.
  destruct rt as [h|].
  - intros [due ->]. right. by exists now0, h, due, n, p.
  - intros ->. left. by exists now0, n, p.
Qed.

Lemma advanceTo_tidy t s :
  tidy s ->
  tidy (advanceTo t s)
  /\ passes (advanceTo t s) + length (timers (advanceTo t s))
     = passes s + length (timers s).
Proof.
  intros [(now0 & n & p & ->)|(now0 & h & due & n & p & ->)]%tidy_cases.
  - by rewrite advanceTo_idle.
  - destruct (N.lt_ge_cases t due) as [Hlt|Hle].
    + rewrite advanceTo_early by done. split; [by exists due | done].
    + rewrite advanceTo_due by done. split; [done | cbn; lia].
Qed.

Lemma scheduleRefresh_tidy d s :
  tidy s ->
  tidy (scheduleRefresh d s)
  /\ passes (scheduleRefresh d s) = passes s
  /\ length (timers (scheduleRefresh d s)) = 1.
Proof.
  intros [(now0 & n & p & ->)|(now0 & h & due & n & p & ->)]%tidy_cases.
  - rewrite scheduleRefresh_idle. split; [by eexists | done].
  - rewrite scheduleRefresh_armed. split; [by eexists | done].
Qed.

Lemma deliver_tidy (signals : list (N * N)) s :
  tidy s ->
  tidy (deliver signals s)
  /\ passes (deliver signals s) + length (timers (deliver signals s))
     <= passes s + length (timers s) + length signals.
Proof.
  revert s. induction signals as [|[t d] signals IH]; intros s Hs.
  { cbn. split; [done | lia]. }
  cbn [deliver length].
  destruct (advanceTo_tidy t s Hs) as [Ha Hcount].
  destruct (scheduleRefresh_tidy d _ Ha) as (Hr & Hp & Hl).
  destruct (IH _ Hr) as [Ht Hle]. split; [done|]. lia.
Qed.

Lemma onunload_tidy s :
  tidy s ->
  exists now n, onunload s = mkScheduler now [] n None (passes s).
Proof.
  intros [(now0 & n & p & ->)|(now0 & h & due & n & p & ->)]%tidy_cases.
  - by exists now0, n.
  - exists now0, n. unfold onunload, clearTimeout, setRefreshTimeout. cbn.
    by rewrite Nat.eqb_refl.
Qed.

End TimerFacts.

(** X17.  Whatever change signals arrive, at whatever times and with
    whatever delays, at most one timer is pending afterwards, and the passes
    made and the timer pending together never outnumber the signals, now
    and at every later time. *)
Theorem passes_never_outnumber_signals (signals : list (N * N)) (t0 T : N) :
  let s := deliver signals (idle t0) in
  tidy s
  /\ length (timers s) <= 1
  /\ passes s + length (timers s) <= length signals
  /\ passes (advanceTo T s) + length (timers (advanceTo T s)) <= length signals.
Proof.
  intros s. subst s.
  destruct (deliver_tidy signals (idle t0)) as [Ht Hle]; [done|].
  destruct (advanceTo_tidy T _ Ht) as [_ Hcount]. cbn in Hle.
  split; [done|]. split; [|split; lia].
  apply tidy_cases in Ht as [(now0 & n & p & ->)|(now0 & h & due & n & p & ->)];
    cbn; lia.
Qed.

(** X18.  Unloading the plugin cancels the refresh that is pending: after
    [onunload] no timer is armed and, however much time passes, no further
    pass is made. *)
Theorem unload_cancels_pending_refresh (signals : list (N * N)) (t0 T : N) :
  let s := onunload (deliver signals (idle t0)) in
  timers s = []
  /\ refreshTimeout s = None
  /\ passes s = passes (deliver signals (idle t0))
  /\ passes (advanceTo T s) = passes (deliver signals (idle t0)).
Proof.
  intros s. subst s.
  destruct (deliver_tidy signals (idle t0)) as [Ht _]; [done|].
  destruct (onunload_tidy _ Ht) as (now0 & n & ->).
  by rewrite advanceTo_idle.
Qed.

(** ** The matcher *)

Section MatcherFacts.

Implicit Types (p s a r kw : jsstring).

Lemma includes_split p s :
  includes p s = true <-> exists a r, s = a ++ p ++ r.
Proof.
  split.
  - intros [i Hi]%includes_true. apply find_Some in Hi as (_ & Hat & _).
    apply startsWith_true in Hat as [r Hr]. exists (take i s), r.
    by rewrite <- Hr, take_drop.
  - intros (a & r & ->). apply includes_app_mid.
Qed.

Lemma includes_grows p s a r :
  includes p s = true -> includes p (a ++ s ++ r) = true.
Proof.
  intros (a' & r' & ->)%includes_split. apply includes_split.
  exists (a ++ a'), (r' ++ r). by rewrite <- !(assoc_L (++)).
Qed.

Lemma includes_lower p s :
  includes p s = true -> includes (toLowerCase p) (toLowerCase s) = true.
Proof.
  intros (a & r & ->)%includes_split. unfold toLowerCase.
  rewrite !map_app. apply includes_app_mid.
Qed.

Lemma includes_empty s : includes [] s = true.
Proof. apply (includes_app_mid [] [] s). Qed.

Lemma includes_in_empty p : includes p [] = true -> p = [].
Proof.
  intros (a & r & Heq)%includes_split. symmetry in Heq.
  apply app_eq_nil in Heq as [_ Heq]. by apply app_eq_nil in Heq as [-> _].
Qed.

Lemma canon_lower_table (c : N) :
  (c < 256)%N -> canonicalize (lowerUnit c) = canonicalize c.
Proof.
  intros Hc.
  assert (forallb (fun c => (canonicalize (lowerUnit c) =? canonicalize c)%N)
            (List.map N.of_nat (seq 0 256)) = true) as Hall by (by vm_compute).
  rewrite forallb_forall in Hall. apply N.eqb_eq, Hall.
  apply in_map_iff. exists (N.to_nat c). split; [apply N2Nat.id|].
  apply in_seq. lia.
Qed.

Lemma matchItems_ignoring_case kw (prev : option N) s (n : nat) :
  inTable kw ->
  matchItems false (chars kw ++ [WordB]) prev s = Some n ->
  matchItems true (chars (toLowerCase kw) ++ [WordB]) prev s = Some n.
Proof.
  intros Hkw. revert prev s n. unfold chars, toLowerCase.
  induction Hkw as [|k kw Hk Hkw IH]; intros prev s n; [done|].
  cbn [List.map app matchItems atomMatch sameChar].
  destruct s as [|c s]; [done|].
  destruct (k =? c)%N eqn:Hkc; [|done]. apply N.eqb_eq in Hkc as <-.
  rewrite canon_lower_table, N.eqb_refl by done.
  destruct (matchItems false _ (Some k) s) as [m|] eqn:Hm; [|done].
  by rewrite (IH _ _ _ Hm).
Qed.

Lemma searchFrom_ignoring_case kw (prev : option N) s (pos : nat) :
  inTable kw ->
  is_Some (searchFrom false (WordB :: chars kw ++ [WordB]) prev s pos) ->
  is_Some (searchFrom true (WordB :: chars (toLowerCase kw) ++ [WordB]) prev s pos).
Proof.
  intros Hkw. revert prev pos.
  assert (forall (prev : option N) (t : jsstring) (n : nat),
            matchItems false (WordB :: chars kw ++ [WordB]) prev t = Some n ->
            matchItems true (WordB :: chars (toLowerCase kw) ++ [WordB]) prev t
            = Some n) as Hhead.
  { intros prev t n. cbn [matchItems].
    destruct (xorb _ _); [|done]. by apply matchItems_ignoring_case. }
  induction s as [|c s IH]; intros prev pos; cbn [searchFrom].
  - destruct (matchItems false _ prev []) as [n|] eqn:Hm; [|by intros [? ?]].
    by rewrite (Hhead _ _ _ Hm).
  - destruct (matchItems false _ prev (c :: s)) as [n|] eqn:Hm.
    + by rewrite (Hhead _ _ _ Hm).
    + intros Hrest. destruct (matchItems true _ prev (c :: s)); [done|].
      by apply IH.
Qed.

Lemma occursAsWord_ignoring_case kw s :
  inTable kw ->
  occursAsWord false kw s = true ->
  occursAsWord true (toLowerCase kw) s = true.
Proof.
  intros Hkw. unfold occursAsWord, Regex.test.
  cbn [global lastIndex source ignoreCase wordRegExp charBefore].
  rewrite !drop_0.
  change (length _ <? 0)%nat with false. cbv iota.
  pose proof (searchFrom_ignoring_case kw None s 0 Hkw) as Hs.
  destruct (searchFrom false _ None s 0) as [[i n]|]; [|done].
  intros _. destruct Hs as [[i' n'] ->]; done.
Qed.

Lemma occursAsWord_empty (ic : bool) kw : occursAsWord ic kw [] = false.
Proof. done. Qed.

End MatcherFacts.

(** X19.  Switching the case sensitivity of a rule off never loses a
    match: a file that matches the rule read with the case matches it read
    without, in both modes of matching, for texts of the range of the case
    tables. *)
Theorem ignoring_case_keeps_matches (file : TFile) (content kw : jsstring)
    (ww : bool) :
  inTable kw -> inTable content ->
  inTable (basename file) -> inTable (filePath file) ->
  containsKeyword file content (mkConfig kw true ww) = Some true ->
  containsKeyword file content (mkConfig kw false ww) = Some true.
Proof.
  intros Hkw _ _ _. destruct ww.
  - rewrite !containsKeyword_wholeWord. cbn [negb]. cbv zeta.
    intros [= Hm]. f_equal.
    apply orb_true_iff in Hm as [Hm|Hm];
      [apply orb_true_iff in Hm as [Hm|Hm]|];
      apply (occursAsWord_ignoring_case _ _ Hkw) in Hm; rewrite Hm;
      by rewrite ?orb_true_r.
  - unfold containsKeyword.
    cbn [caseSensitive matchWholeWord keyword negb]. cbv zeta.
    intros [= Hm]. f_equal.
    apply orb_true_iff in Hm as [Hm|Hm];
      [apply orb_true_iff in Hm as [Hm|Hm]|];
      apply includes_lower in Hm; rewrite Hm; by rewrite ?orb_true_r.
Qed.

Lemma ignoring_case_keeps_matches_witness :
  containsKeyword noteB (lit "see alpha here") (mkConfig (lit "alpha") false true)
  = Some true.
Proof.
  apply (ignoring_case_keeps_matches noteB (lit "see alpha here") (lit "alpha") true);
    try (repeat first [apply List.Forall_nil
                      | apply List.Forall_cons; [reflexivity|]]).
  vm_compute. reflexivity.
Defined.

(** X20.  A file whose title or path matches the rule is listed whatever
    its text is: when it matches with an empty text, it matches with every
    text. *)
Theorem name_match_ignores_content (file : TFile) (content : jsstring)
    (cfg : AutoNodeConfig) :
  containsKeyword file [] cfg = Some true ->
  containsKeyword file content cfg = Some true.
Proof.
  destruct cfg as [kw cs ww]. destruct ww.
  - rewrite !containsKeyword_wholeWord. cbv zeta.
    rewrite occursAsWord_empty. cbn [orb]. intros [= Hm]. f_equal.
    rewrite <- orb_assoc, Hm. apply orb_true_r.
  - unfold containsKeyword.
    cbn [caseSensitive matchWholeWord keyword negb]. cbv zeta.
    intros [= Hm]. f_equal. rewrite <- orb_assoc in Hm |- *.
    apply orb_true_iff in Hm as [Hm|Hm]; [|rewrite Hm; apply orb_true_r].
    assert (includes (if cs then kw else toLowerCase kw) [] = true) as Hk.
    { by destruct cs. }
    apply includes_in_empty in Hk. rewrite Hk. by rewrite includes_empty.
Qed.

Lemma name_match_ignores_content_witness :
  containsKeyword (mkFile (lit "alpha/B.md") (lit "B") (lit "md"))
    (lit "nothing here") alphaRule = Some true.
Proof.
  apply (name_match_ignores_content (mkFile (lit "alpha/B.md") (lit "B") (lit "md"))
           (lit "nothing here") alphaRule).
  vm_compute. reflexivity.
Defined.

(** X21.  In substring mode a match survives additions: a file that
    matches still matches when text is added before and after its text.
    (With the case ignored, for texts of the range of the case tables.) *)
Theorem substring_match_survives_additions (file : TFile)
    (content before after : jsstring) (cfg : AutoNodeConfig) :
  matchWholeWord cfg = false ->
  caseSensitive cfg = true \/ inTable (before ++ content ++ after) ->
  containsKeyword file content cfg = Some true ->
  containsKeyword file (before ++ content ++ after) cfg = Some true.
Proof.
  destruct cfg as [kw cs ww]. cbn [matchWholeWord caseSensitive].
  intros -> _. unfold containsKeyword.
  cbn [caseSensitive matchWholeWord keyword negb]. cbv zeta.
  intros [= Hm]. f_equal. rewrite <- orb_assoc in Hm |- *.
  apply orb_true_iff in Hm as [Hm|Hm]; [|rewrite Hm; apply orb_true_r].
  destruct cs.
  - by rewrite includes_grows.
  - unfold toLowerCase in *. rewrite !map_app. by rewrite includes_grows.
Qed.

Lemma substring_match_survives_additions_witness :
  containsKeyword noteB (lit "an " ++ lit "alpha info" ++ lit "s") alphaRule
  = Some true.
Proof.
  apply (substring_match_survives_additions noteB (lit "alpha info")
           (lit "an ") (lit "s") alphaRule).
  - reflexivity.
  - right. repeat first [apply List.Forall_nil
                        | apply List.Forall_cons; [reflexivity|]].
  - vm_compute. reflexivity.
Defined.

(** In whole-word mode an addition can lose the match. *)
Example whole_word_match_lost_by_addition :
  containsKeyword noteB (lit "alpha") betaRule = Some false
  /\ containsKeyword noteB (lit "beta") betaRule = Some true
  /\ containsKeyword noteB (lit "beta" ++ lit "s") betaRule = Some false.
Proof. by vm_compute. Qed.

(** ** The renaming of an auto-node *)

Section RenameMore.

Context `{HostApi}.

Implicit Types (w : World) (file : TFile) (p : jsstring).




End RenameMore.



(** ** The markers of a note *)

Section MarkerFacts.

Implicit Types (p q s sep : jsstring).

Lemma includes_self p : includes p p = true.
Proof.
  pose proof (includes_app_mid p [] []) as Hp.
  by rewrite List.app_nil_r in Hp.
Qed.

Lemma includes_join p q sep (parts : list jsstring) :
  In q parts -> includes p q = true -> includes p (join sep parts) = true.
Proof.
  intros Hin Hq. induction parts as [|q' parts IH]; [done|].
  cbn [join]. destruct Hin as [->|Hin].
  - destruct parts as [|q'' parts]; [done|].
    exact (includes_grows p q [] (sep ++ join sep (q'' :: parts)) Hq).
  - destruct parts as [|q'' parts]; [done|].
    pose proof (includes_grows p _ (q' ++ sep) [] (IH Hin)) as Hg.
    by rewrite List.app_nil_r, <- (assoc_L (++)) in Hg.
Qed.

Lemma canonicalize_low (k c : N) :
  (k < 65)%N -> canonicalize c = k -> c = k.
Proof.
  intros Hk. unfold canonicalize, upperUnits.
  repeat (match goal with
          | |- context [(?a <=? ?b)%N] => destruct (N.leb_spec a b)
          | |- context [(?a <? ?b)%N] => destruct (N.ltb_spec a b)
          | |- context [(?a =? ?b)%N] => destruct (N.eqb_spec a b)
          end; cbn [andb orb negb]);
    lia.
Qed.

Lemma opener_needed (rest : list item) (prev : option N) s :
  startsWith (lit "<!--") s = false ->
  matchItems true (chars (lit "<!--") ++ rest) prev s = None.
Proof.
  change (lit "<!--") with [60; 33; 45; 45]%N. unfold chars.
  cbn [List.map app]. revert prev.
  assert (forall k c, (k < 65)%N -> canonicalize k = k ->
            (canonicalize k =? canonicalize c)%N = true -> c = k) as Hsame.
  { intros k c Hk Hkk Hc. apply N.eqb_eq in Hc. rewrite Hkk in Hc.
    by apply canonicalize_low. }
  destruct s as [|c1 [|c2 [|c3 [|c4 s]]]]; intros prev Hs;
    cbn [matchItems atomMatch sameChar];
    repeat match goal with
           | |- context [(canonicalize ?k =? canonicalize ?c)%N] =>
               destruct (canonicalize k =? canonicalize c)%N eqn:?Hc;
               [apply Hsame in Hc; [subst c | reflexivity | reflexivity] | done]
           end;
    done.
Qed.

Lemma replaceGo_untouched (ic : bool) (pat : list item)
    (f : jsstring -> jsstring) (prev : option N) s :
  (forall j prev', matchItems ic pat prev' (drop j s) = None) ->
  replaceGo ic pat f 0 prev s = s.
Proof.
  revert prev. induction s as [|c s IH]; intros prev Hno; cbn [replaceGo].
  - pose proof (Hno 0 prev) as H0. cbn [drop] in H0. by rewrite H0.
  - pose proof (Hno 0 prev) as H0. cbn [drop] in H0. rewrite H0. f_equal.
    apply IH. intros j prev'. apply (Hno (S j)).
Qed.

End MarkerFacts.

(** X23.  A text without the opening of a comment is left as it is by
    [normalizeMarkers]: the normalisation rewrites comments only. *)
Theorem comment_free_text_is_normal (content : jsstring) :
  includes (lit "<!--") content = false ->
  normalizeMarkers content = content.
Proof.
  intros Hinc.
  assert (forall j, startsWith (lit "<!--") (drop j content) = false) as Hno.
  { apply find_None. destruct (find (lit "<!--") content) as [i|] eqn:Hf; [|done].
    assert (includes (lit "<!--") content = true) as Hyes
      by (apply includes_true; by exists i).
    congruence. }
  unfold normalizeMarkers, replaceAll, keywordCommentRe, startMarkerRe,
    endMarkerRe.
  cbn [source ignoreCase].
  rewrite (replaceGo_untouched true _ canonicalKeywordComment None content)
    by (intros j prev'; apply opener_needed, Hno).
  rewrite (replaceGo_untouched true _ _ None content)
    by (intros j prev'; apply opener_needed, Hno).
  apply replaceGo_untouched. intros j prev'. apply opener_needed, Hno.
Qed.

Lemma comment_free_text_is_normal_witness :
  normalizeMarkers (lit "alpha < beta, see [[A]] -->") =
  lit "alpha < beta, see [[A]] -->".
Proof.
  apply (comment_free_text_is_normal (lit "alpha < beta, see [[A]] -->")).
  vm_compute. reflexivity.
Defined.

Section EnsureMarkersFacts.

Implicit Types (w : World) (file : TFile) (keyword : jsstring).

Lemma markersAddition_includes keyword :
  includes AUTO_NODE_MARKER_START (markersAddition keyword) = true
  /\ includes AUTO_NODE_MARKER_END (markersAddition keyword) = true.
Proof.
  split.
  - apply (includes_join _ AUTO_NODE_MARKER_START); [|apply includes_self].
    do 2 right. by left.
  - apply (includes_join _ AUTO_NODE_MARKER_END); [|apply includes_self].
    do 4 right. by left.
Qed.

Lemma buildInitialContent_includes (cfg : AutoNodeConfig) :
  includes INTRO_HEADING (buildInitialContent cfg) = true
  /\ includes AUTO_NODE_MARKER_START (buildInitialContent cfg) = true
  /\ includes AUTO_NODE_MARKER_END (buildInitialContent cfg) = true.
Proof.
  split; [|split].
  - apply (includes_join _ AUTO_NODE_INTRO); [do 7 right; by left|].
    destruct intro_starts_with_heading as [rest ->].
    apply (includes_app_mid _ []).
  - apply (includes_join _ AUTO_NODE_MARKER_START); [|apply includes_self].
    do 9 right. by left.
  - apply (includes_join _ AUTO_NODE_MARKER_END); [|apply includes_self].
    do 11 right. by left.
Qed.

Lemma ensureMarkers_present file keyword w :
  faults w (Read (filePath file)) = None ->
  includes AUTO_NODE_MARKER_START (contentOf w (filePath file)) = true ->
  includes AUTO_NODE_MARKER_END (contentOf w (filePath file)) = true ->
  ensureMarkers file keyword w = (Returned tt, w).
Proof.
  intros Hread Hs He. unfold ensureMarkers, bind, read, hostCall, gets.
  by rewrite Hread, Hs, He.
Qed.

End EnsureMarkersFacts.

(** X24.  When the application accepts the reading and the writing of the
    file, [ensureMarkers] returns and the file then holds both markers; a
    file that held both is not written; no other file changes; and a
    second call changes nothing. *)
Theorem markers_are_ensured (file : TFile) (keyword : jsstring) (w : World) :
  faults w (Read (filePath file)) = None ->
  faults w (Modify (filePath file)) = None ->
  exists w',
    ensureMarkers file keyword w = (Returned tt, w')
    /\ includes AUTO_NODE_MARKER_START (contentOf w' (filePath file)) = true
    /\ includes AUTO_NODE_MARKER_END (contentOf w' (filePath file)) = true
    /\ (includes AUTO_NODE_MARKER_START (contentOf w (filePath file)) = true ->
        includes AUTO_NODE_MARKER_END (contentOf w (filePath file)) = true ->
        w' = w)
    /\ (forall q, q <> filePath file -> contentOf w' q = contentOf w q)
    /\ length (vaultWrites w') <= S (length (vaultWrites w))
    /\ ensureMarkers file keyword w' = (Returned tt, w').
Proof.
  intros Hread Hmodify.
  destruct (includes AUTO_NODE_MARKER_START (contentOf w (filePath file))
            && includes AUTO_NODE_MARKER_END (contentOf w (filePath file)))
    eqn:Hboth.
  - apply andb_true_iff in Hboth as [Hs He].
    exists w. rewrite ensureMarkers_present by done.
    split; [done|]. split; [done|]. split; [done|]. split; [done|].
    split; [done|]. split; [lia | done].
  - set (text := trimEnd (contentOf w (filePath file)) ++ markersAddition keyword).
    exists (setVaultWrites (vaultWrites w ++ [(filePath file, text)])
              (setVaultData (<[filePath file := text]> (vaultData w)) w)).
    destruct (markersAddition_includes keyword) as [Hs He].
    assert (includes AUTO_NODE_MARKER_START text = true) as Hs'.
    { pose proof (includes_grows _ _ (trimEnd (contentOf w (filePath file))) [] Hs)
        as Hg. by rewrite List.app_nil_r in Hg. }
    assert (includes AUTO_NODE_MARKER_END text = true) as He'.
    { pose proof (includes_grows _ _ (trimEnd (contentOf w (filePath file))) [] He)
        as Hg. by rewrite List.app_nil_r in Hg. }
    split.
    { unfold ensureMarkers, bind, read, modify, hostCall, gets, modifyWorld.
      by rewrite Hread, Hboth, Hmodify. }
    assert (contentOf
              (setVaultWrites (vaultWrites w ++ [(filePath file, text)])
                 (setVaultData (<[filePath file := text]> (vaultData w)) w))
              (filePath file) = text) as Htext.
    { unfold contentOf. cbn. by rewrite lookup_insert_eq. }
    rewrite Htext.
    split; [done|]. split; [done|]. split; [intros Hs0 He0; by rewrite Hs0, He0 in Hboth|].
    split; [intros q Hq; unfold contentOf; cbn; by rewrite lookup_insert_ne|].
    split; [cbn; rewrite length_app; cbn; lia|].
    apply ensureMarkers_present; [exact Hread | by rewrite Htext | by rewrite Htext].
Qed.

Lemma markers_are_ensured_witness :
  exists w',
    ensureMarkers hubN (lit "alpha") (smallVault (lit "My hub.  ") noFaults)
    = (Returned tt, w')
    /\ includes AUTO_NODE_MARKER_START (contentOf w' (lit "N.md")) = true
    /\ includes AUTO_NODE_MARKER_END (contentOf w' (lit "N.md")) = true.
Proof.
  destruct (markers_are_ensured hubN (lit "alpha")
              (smallVault (lit "My hub.  ") noFaults))
    as (w' & Hrun & Hs & He & _); [reflexivity | reflexivity |].
  exists w'. split; [exact Hrun|]. split; [exact Hs | exact He].
Defined.

(** X25.  The text a new auto-node is created with needs no repair,
    whatever the rule: it holds the heading and both markers, so
    [ensureIntroSection] and the step that establishes the markers leave
    it as it is, and [ensureMarkers] on a file that holds it writes
    nothing. *)
Theorem initial_content_needs_no_repair (cfg : AutoNodeConfig) :
  ensureIntroSection (buildInitialContent cfg) = buildInitialContent cfg
  /\ establishMarkers (buildInitialContent cfg) = buildInitialContent cfg
  /\ forall (file : TFile) (keyword : jsstring) (w : World),
       faults w (Read (filePath file)) = None ->
       contentOf w (filePath file) = buildInitialContent cfg ->
       ensureMarkers file keyword w = (Returned tt, w).
Proof.
  destruct (buildInitialContent_includes cfg) as (Hh & Hs & He).
  split; [by apply ensureIntroSection_present|].
  split; [by apply establishMarkers_present|].
  intros file keyword w Hread Htext.
  apply ensureMarkers_present; [done | by rewrite Htext | by rewrite Htext].
Qed.
